(** * A shallow embedding of [vigenere.py]

    The module defines one class, [Vigenere], that builds a square cipher
    table out of the rotations of a character set and uses a repeating
    passkey to encrypt and decrypt text.

    Python strings are modelled as lists of symbols over an arbitrary
    countable alphabet [A]; Python sets as [gset A]; the [rows] dictionary
    as an insertion-ordered association list; raised exceptions as the
    [Raise] branch of a result type. *)

From Stdlib Require Import Ascii String.
From stdpp Require Import base decidable list countable gmap sets strings.

(** ** Exceptions and results *)

Section Model.
Context {A : Type} `{Countable A}.

(** A Python [str] over the alphabet [A]. *)
Local Abbreviation str := (list A).

(** The messages carried by the [ValueError]s the module raises, and the
    one raised by [str.index]. *)
Inductive message : Type :=
| PasskeyNotSubset                       (* "@passkey must be a subset of @charset." *)
| TextContainsPasskey                    (* "Text cannot contain passkey." *)
| TextNotInCharset (diff : gset A)       (* "Text contains characters not in @charset: {diff}" *)
| BadSeparator                           (* "Value for @sep can't be in @self.charset or equal \n." *)
| SubstringNotFound.                     (* str.index *)

Inductive exn : Type :=
| ValueError (m : message)
| ZeroDivisionError
| KeyError (k : A)
| IndexError.

Inductive result (T : Type) : Type :=
| Ok (v : T)
| Raise (e : exn).
Global Arguments Ok {T} v.
Global Arguments Raise {T} e.

Definition bind {T U : Type} (m : result T) (k : T → result U) : result U :=
  match m with
  | Ok v => k v
  | Raise e => Raise e
  end.

(** ** Built-in operations on strings and dictionaries *)

(** [s[i]] for a non-negative index. *)
Definition getitem (s : str) (i : nat) : result A :=
  match s !! i with
  | Some x => Ok x
  | None => Raise IndexError
  end.

(** [s.index(c)] for a one-symbol string [c]: the first position. *)
Definition str_index (s : str) (c : A) : result nat :=
  match list_find (λ x, x = c) s with
  | Some (i, _) => Ok i
  | None => Raise (ValueError SubstringNotFound)
  end.

(** [s.startswith(p)]. *)
Fixpoint startswith (p s : str) : bool :=
  match p, s with
  | [], _ => true
  | _ :: _, [] => false
  | x :: p', y :: s' => bool_decide (x = y) && startswith p' s'
  end.

(** [p in s] on strings: [p] occurs as a contiguous run of [s]. *)
Fixpoint str_in (p s : str) : bool :=
  startswith p s ||
  match s with
  | [] => false
  | _ :: s' => str_in p s'
  end.

(** [sep.join(parts)]. *)
Fixpoint str_join (sep : str) (parts : list str) : str :=
  match parts with
  | [] => []
  | [x] => x
  | x :: rest => x ++ sep ++ str_join sep rest
  end.

(** [enumerate(l)]. *)
Definition enumerate {B : Type} (l : list B) : list (nat * B) :=
  imap (λ i x, (i, x)) l.

(** A [dict] from symbols to strings, in insertion order. *)
Local Abbreviation dict := (list (A * list A)).

(** [d[k] = v]: an existing key keeps its place and takes the new value,
    a new key goes last. *)
Fixpoint dict_setitem (k : A) (v : str) (d : dict) : dict :=
  match d with
  | [] => [(k, v)]
  | (k', v') :: d' =>
      if decide (k' = k) then (k, v) :: d' else (k', v') :: dict_setitem k v d'
  end.

(** [d[k]]. *)
Fixpoint dict_getitem (d : dict) (k : A) : result str :=
  match d with
  | [] => Raise (KeyError k)
  | (k', v') :: d' => if decide (k' = k) then Ok v' else dict_getitem d' k
  end.

(** ** The class *)

Record Vigenere : Type := mkVigenere {
  passkey : str;
  charset : str;
  rows : dict
}.

(** [charset[i:] + charset[:i]]. *)
Definition rotation (cs : str) (i : nat) : str := drop i cs ++ take i cs.

(** The dictionary a comprehension [{letter: f(i) for i, letter in
    enumerate(l)}] builds: the items are set one after the other. *)
Definition comprehension (f : nat → str) (l : str) : dict :=
  foldl (λ d '(i, letter), dict_setitem letter (f i) d) [] (enumerate l).

(** The dict comprehension of [__init__]. *)
Definition build_rows (cs : str) : dict :=
  comprehension (rotation cs) cs.

Definition __init__ (pk cs : str) : result Vigenere :=
  if negb (bool_decide ((list_to_set pk : gset A) ⊆ list_to_set cs)) then
    Raise (ValueError PasskeyNotSubset)
  else
    Ok {| passkey := pk; charset := cs; rows := build_rows cs |}.

Definition _fitted_passkey (self : Vigenere) (text : str) : result str :=
  let fitted_passkey := passkey self in
  if bool_decide (length text ≤ length fitted_passkey) then
    Ok (take (length text) fitted_passkey)
  else
    if bool_decide (length fitted_passkey = 0) then Raise ZeroDivisionError
    else
      let div := length text / length fitted_passkey in
      let mod_ := length text mod length fitted_passkey in
      let fitted_passkey :=
        Nat.iter (div - 1) (λ f, f ++ passkey self) fitted_passkey in
      Ok (fitted_passkey ++ take mod_ (passkey self)).

Definition _validate_text (self : Vigenere) (text : str) : result unit :=
  if str_in (passkey self) text then
    Raise (ValueError TextContainsPasskey)
  else
    let text_set : gset A := list_to_set text in
    let charset_set : gset A := list_to_set (charset self) in
    if negb (bool_decide (text_set ⊆ charset_set)) then
      Raise (ValueError (TextNotInCharset (text_set ∖ charset_set)))
    else Ok ().

(** One pass of the body of the loop of [encrypt]. *)
Definition encrypt_at (self : Vigenere) (text : str) (i : nat) (passkey_char : A)
  : result A :=
  bind (str_index (charset self) passkey_char) (λ charset_pos,
  bind (getitem text i) (λ text_i,
  bind (dict_getitem (rows self) text_i) (λ row,
  getitem row charset_pos))).

Fixpoint encrypt_loop (self : Vigenere) (text : str) (items : list (nat * A))
    (encryption : str) : result str :=
  match items with
  | [] => Ok encryption
  | (i, passkey_char) :: items' =>
      bind (encrypt_at self text i passkey_char) (λ encrypted_char,
      encrypt_loop self text items' (encryption ++ [encrypted_char]))
  end.

Definition encrypt (self : Vigenere) (text : str) : result str :=
  bind (_validate_text self text) (λ _,
  bind (_fitted_passkey self text) (λ fitted,
  encrypt_loop self text (enumerate fitted) [])).

(** One pass of the body of the loop of [decrypt]. *)
Definition decrypt_at (self : Vigenere) (text : str) (i : nat) (passkey_char : A)
  : result A :=
  bind (dict_getitem (rows self) passkey_char) (λ row,
  bind (getitem text i) (λ text_i,
  bind (str_index row text_i) (λ row_pos,
  getitem (charset self) row_pos))).

Fixpoint decrypt_loop (self : Vigenere) (text : str) (items : list (nat * A))
    (decryption : str) : result str :=
  match items with
  | [] => Ok decryption
  | (i, passkey_char) :: items' =>
      bind (decrypt_at self text i passkey_char) (λ decrypted_char,
      decrypt_loop self text items' (decryption ++ [decrypted_char]))
  end.

Definition decrypt (self : Vigenere) (text : str) : result str :=
  bind (_validate_text self text) (λ _,
  bind (_fitted_passkey self text) (λ fitted,
  decrypt_loop self text (enumerate fitted) [])).

(** [show]: [newline] is the symbol of ["\n"], [repr] the built-in that
    quotes a one-symbol string. *)
Section Show.
Variable newline : A.
Variable repr : A → str.

Definition show_line (sep : str) (item : A * str) : str :=
    ((repr item.1 ++ sep) ++ str_join sep (map repr item.2)) ++ [newline].

Definition show (self : Vigenere) (sep : str) : result str :=
    if str_in sep (charset self) || bool_decide (sep = [newline]) then
      Raise (ValueError BadSeparator)
    else
      Ok (foldl (λ table item, table ++ show_line sep item) [] (rows self)).
End Show.

End Model.

Global Arguments message A {_ _}.
Global Arguments exn A {_ _}.
Global Arguments result A {_ _} T.
Global Arguments Vigenere A : clear implicits.

(** ** The default character set *)

(** A Python string literal over [ascii]. *)
Definition lit (x : string) : list ascii := list_ascii_of_string x.

Definition ascii_lowercase : list ascii := lit "abcdefghijklmnopqrstuvwxyz".
Definition ascii_uppercase : list ascii := lit "ABCDEFGHIJKLMNOPQRSTUVWXYZ".
Definition ascii_letters : list ascii := ascii_lowercase ++ ascii_uppercase.
Definition digits : list ascii := lit "0123456789".
Definition punctuation : list ascii :=
  lit "!" ++ [ascii_of_nat 34] ++ lit "#$%&'()*+,-./:;<=>?@[\]^_`{|}~".

Definition CHARSET : list ascii := ascii_letters ++ digits ++ punctuation ++ lit " ".

(** ** Notions used to state the properties *)

(** [p] occurs in [s] as a contiguous run of symbols. *)
Definition substring {A : Type} (p s : list A) : Prop :=
  ∃ before after, s = before ++ p ++ after.

(** The engine [__init__] returns on a passkey and a character set that
    pass its check. *)
Definition engine {A : Type} `{Countable A} (pk cs : list A) : Vigenere A :=
  {| passkey := pk; charset := cs; rows := build_rows cs |}.

(** The newline symbol, and [repr] on the symbols that need no escape: the
    symbol between single quotes. *)
Definition newline_char : ascii := ascii_of_nat 10.
Definition tab_char : ascii := ascii_of_nat 9.
Definition quoted (c : ascii) : list ascii := ["'"%char; c; "'"%char].

(** Closing tactics for the side conditions of the examples. *)
Ltac by_computation := vm_compute; first [reflexivity | exact I].
Ltac decide_by_computation :=
  match goal with |- ?P => apply (bool_decide_unpack P) end; by_computation.
Ltac all_in_charset := apply Forall_forall; decide_by_computation.

(** * Properties *)

(** The example of the class docstring. *)
Example docstring_encrypt :
  bind (__init__ (lit "p@sSw0rd") CHARSET) (λ vig, encrypt vig (lit "hello world"))
  = Ok (lit "w^D3KZNrG v").
Proof. vm_compute. reflexivity. Qed.

Example docstring_decrypt :
  bind (__init__ (lit "p@sSw0rd") CHARSET) (λ vig,
    bind (encrypt vig (lit "hello world")) (decrypt vig))
  = Ok (lit "hello world").
Proof. vm_compute. reflexivity. Qed.

Section Strings.
Context {A : Type} `{Countable A}.
Implicit Types (p s text : list A) (c x y : A) (i j n : nat).

Lemma startswith_prefix p s : startswith p s = true ↔ ∃ after, s = p ++ after.
Proof.
  revert s. induction p as [|x p IH]; intros [|y s]; simpl.
  - split; [exists []; reflexivity | reflexivity].
  - split; [exists (y :: s); reflexivity | reflexivity].
  - split; [discriminate | intros [after Heq]; discriminate].
  - rewrite andb_true_iff, bool_decide_eq_true, IH. split.
    + intros [-> [after ->]]. exists after. reflexivity.
    + intros [after Heq]. injection Heq as -> ->. eauto.
Qed.

Lemma str_in_substring p s : str_in p s = true ↔ substring p s.
Proof.
  unfold substring. induction s as [|y s IH]; simpl.
  - rewrite orb_false_r, startswith_prefix. split.
    + intros [after Heq]. exists [], after. exact Heq.
    + intros [before [after Heq]]. symmetry in Heq.
      apply app_eq_nil in Heq as [-> Heq]. apply app_eq_nil in Heq as [-> ->].
      exists []. reflexivity.
  - rewrite orb_true_iff, startswith_prefix, IH. split.
    + intros [[after Heq] | [before [after Heq]]].
      * exists [], after. exact Heq.
      * exists (y :: before), after. rewrite Heq. reflexivity.
    + intros [[|z before] [after Heq]].
      * left. exists after. exact Heq.
      * right. injection Heq as -> ->. eauto.
Qed.

Lemma str_in_nil s : str_in [] s = true.
Proof. destruct s; reflexivity. Qed.

Lemma str_in_false p s : str_in p s = false ↔ ¬ substring p s.
Proof. rewrite <- str_in_substring. destruct (str_in p s); naive_solver. Qed.

(** [str.index] returns the first position of the symbol. *)
Lemma str_index_Ok s c i :
  str_index s c = Ok i ↔ s !! i = Some c ∧ ∀ j, j < i → s !! j ≠ Some c.
Proof.
  unfold str_index. destruct (list_find (λ x, x = c) s) as [[k z]|] eqn:Hfind.
  - apply list_find_Some in Hfind as (Hk & -> & Hfirst). split.
    + intros [= <-]. split; [exact Hk|]. intros j Hj Hjc. exact (Hfirst j c Hjc Hj eq_refl).
    + intros [Hi Hmin]. f_equal.
      destruct (Nat.lt_trichotomy k i) as [Hlt|[->|Hlt]]; [|reflexivity|].
      * destruct (Hmin k Hlt Hk).
      * destruct (Hfirst i c Hi Hlt eq_refl).
  - split; [discriminate|]. intros [Hi _].
    apply list_find_None in Hfind. rewrite Forall_forall in Hfind.
    destruct (Hfind c); [|reflexivity]. eapply list_elem_of_lookup_2, Hi.
Qed.

Lemma str_index_NoDup s c i : NoDup s → s !! i = Some c → str_index s c = Ok i.
Proof.
  intros Hnd Hi. apply str_index_Ok. split; [exact Hi|].
  intros j Hj Hjc. pose proof (NoDup_lookup _ _ _ _ Hnd Hi Hjc). lia.
Qed.

Lemma str_index_elem s c : c ∈ s → ∃ i, str_index s c = Ok i ∧ s !! i = Some c.
Proof.
  intros Hin. unfold str_index.
  destruct (list_find (λ x, x = c) s) as [[k z]|] eqn:Hfind.
  - apply list_find_Some in Hfind as (Hk & -> & _). eauto.
  - apply list_find_None in Hfind. rewrite Forall_forall in Hfind.
    destruct (Hfind c Hin eq_refl).
Qed.

End Strings.

Ltac no_substring := apply str_in_false; by_computation.

(** ** The cipher table *)

Section Table.
Context {A : Type} `{Countable A}.
Implicit Types (cs row : list A) (c k x y : A) (i j n : nat).
Implicit Types (d : list (A * list A)).

Lemma length_rotation cs i : length (rotation cs i) = length cs.
Proof.
  unfold rotation. rewrite length_app, length_drop, length_take. lia.
Qed.

Lemma rotation_Permutation cs i : rotation cs i ≡ₚ cs.
Proof.
  unfold rotation. rewrite Permutation_app_comm. rewrite take_drop. reflexivity.
Qed.

Lemma rotation_0 cs : rotation cs 0 = cs.
Proof. unfold rotation. rewrite drop_0, take_0. apply app_nil_r. Qed.

(** Column [j] of the row rotated by [i] is the symbol at [(i + j) mod n]. *)
Lemma lookup_rotation cs i j :
  i < length cs → j < length cs →
  rotation cs i !! j = cs !! ((i + j) mod length cs).
Proof.
  intros Hi Hj. unfold rotation.
  destruct (decide (i + j < length cs)) as [Hlt|Hge].
  - rewrite lookup_app_l by (rewrite length_drop; lia).
    rewrite lookup_drop, Nat.mod_small by lia. reflexivity.
  - rewrite lookup_app_r by (rewrite length_drop; lia).
    rewrite length_drop, lookup_take_lt by lia.
    f_equal. apply (Nat.mod_unique _ _ 1); lia.
Qed.

Lemma lookup_rotation_0 cs i c : cs !! i = Some c → rotation cs i !! 0 = Some c.
Proof.
  intros Hi. pose proof (lookup_lt_Some _ _ _ Hi) as Hlt.
  rewrite lookup_rotation by lia.
  rewrite Nat.add_0_r, Nat.mod_small by lia. exact Hi.
Qed.

Lemma dict_getitem_setitem_eq d k row : dict_getitem (dict_setitem k row d) k = Ok row.
Proof.
  induction d as [|[k' v'] d IH]; simpl.
  - rewrite decide_True by reflexivity. reflexivity.
  - destruct (decide (k' = k)) as [->|Hne]; simpl.
    + rewrite decide_True by reflexivity. reflexivity.
    + rewrite decide_False by exact Hne. exact IH.
Qed.

Lemma dict_getitem_setitem_ne d k x row :
  k ≠ x → dict_getitem (dict_setitem k row d) x = dict_getitem d x.
Proof.
  intros Hne. induction d as [|[k' v'] d IH]; simpl.
  - rewrite decide_False by exact Hne. reflexivity.
  - destruct (decide (k' = k)) as [->|Hne']; simpl.
    + rewrite !decide_False by exact Hne. reflexivity.
    + destruct (decide (k' = x)); [reflexivity | exact IH].
Qed.

Lemma elem_of_dict_setitem d k row x v :
  (x, v) ∈ dict_setitem k row d → (x, v) = (k, row) ∨ (x, v) ∈ d.
Proof.
  induction d as [|[k' v'] d IH]; simpl.
  - intros Hin. apply list_elem_of_singleton in Hin. left. exact Hin.
  - destruct (decide (k' = k)) as [->|Hne]; intros Hin;
      apply elem_of_cons in Hin as [Heq|Hin].
    + left. exact Heq.
    + right. apply elem_of_cons. right. exact Hin.
    + right. apply elem_of_cons. left. exact Heq.
    + destruct (IH Hin) as [Heq|Hin']; [left; exact Heq|].
      right. apply elem_of_cons. right. exact Hin'.
Qed.

(** A new key goes last. *)
Lemma dict_setitem_fresh d k row :
  k ∉ d.*1 → dict_setitem k row d = d ++ [(k, row)].
Proof.
  induction d as [|[k' v'] d IH]; simpl; intros Hnin; [reflexivity|].
  apply not_elem_of_cons in Hnin as [Hne Hnin].
  rewrite decide_False by (intros ->; apply Hne; reflexivity).
  rewrite IH by exact Hnin. reflexivity.
Qed.

Lemma comprehension_snoc f l c :
  comprehension f (l ++ [c]) = dict_setitem c (f (length l)) (comprehension f l).
Proof.
  unfold comprehension, enumerate. rewrite imap_app, foldl_app. simpl.
  rewrite Nat.add_0_r. reflexivity.
Qed.

(** Every entry of the dictionary comes from a position of the list. *)
Lemma elem_of_comprehension f l x v :
  (x, v) ∈ comprehension f l → ∃ i, l !! i = Some x ∧ v = f i.
Proof.
  revert x v. induction l as [|c l IH] using rev_ind; intros x v Hin.
  - apply elem_of_nil in Hin. destruct Hin.
  - rewrite comprehension_snoc in Hin.
    apply elem_of_dict_setitem in Hin as [[= -> ->]|Hin].
    + exists (length l). split; [|reflexivity].
      rewrite lookup_app_r, Nat.sub_diag by lia. reflexivity.
    + destruct (IH _ _ Hin) as (i & Hi & ->). exists i. split; [|reflexivity].
      apply lookup_app_l_Some. exact Hi.
Qed.

(** Every symbol of the list is a key, bound to the value of one of its
    positions (the last one). *)
Lemma comprehension_getitem f l x :
  x ∈ l → ∃ i, l !! i = Some x ∧ dict_getitem (comprehension f l) x = Ok (f i).
Proof.
  induction l as [|c l IH] using rev_ind; intros Hin.
  - apply elem_of_nil in Hin. destruct Hin.
  - rewrite comprehension_snoc. destruct (decide (c = x)) as [->|Hne].
    + exists (length l). rewrite dict_getitem_setitem_eq. split; [|reflexivity].
      rewrite lookup_app_r, Nat.sub_diag by lia. reflexivity.
    + rewrite dict_getitem_setitem_ne by exact Hne.
      apply elem_of_app in Hin as [Hin|Hin].
      * destruct (IH Hin) as (i & Hi & Hget). exists i. split; [|exact Hget].
        apply lookup_app_l_Some. exact Hi.
      * apply list_elem_of_singleton in Hin. congruence.
Qed.

(** Without repeated symbols no key is overwritten. *)
Lemma comprehension_NoDup f l :
  NoDup l → comprehension f l = imap (λ i c, (c, f i)) l.
Proof.
  induction l as [|c l IH] using rev_ind; intros Hnd; [reflexivity|].
  apply NoDup_app in Hnd as (Hnd & Hfresh & _).
  rewrite comprehension_snoc, imap_app, IH by exact Hnd. simpl.
  rewrite Nat.add_0_r. apply dict_setitem_fresh.
  rewrite fmap_imap. intros Hin. apply elem_of_lookup_imap in Hin as (i & y & Heq & Hi).
  simpl in Heq. subst y. apply (Hfresh c).
  - eapply list_elem_of_lookup_2, Hi.
  - apply list_elem_of_singleton. reflexivity.
Qed.

Lemma comprehension_NoDup_getitem f l i c :
  NoDup l → l !! i = Some c → dict_getitem (comprehension f l) c = Ok (f i).
Proof.
  intros Hnd Hi. destruct (comprehension_getitem f l c) as (j & Hj & Hget).
  - eapply list_elem_of_lookup_2, Hi.
  - rewrite (NoDup_lookup _ _ _ _ Hnd Hi Hj). exact Hget.
Qed.

End Table.

(** ** The fitted passkey *)

Section Fitted.
Context {A : Type} `{Countable A}.
Implicit Types (self : Vigenere A) (P text fitted : list A) (k : A) (i n : nat).

Lemma concat_replicate_comm P n :
  concat (replicate n P) ++ P = P ++ concat (replicate n P).
Proof.
  induction n as [|n IH]; simpl.
  - rewrite app_nil_r. reflexivity.
  - rewrite <- app_assoc, IH. reflexivity.
Qed.

(** Appending the passkey [n] more times gives [n + 1] copies of it. *)
Lemma iter_append_replicate P n :
  Nat.iter n (λ f, f ++ P) P = concat (replicate (S n) P).
Proof.
  induction n as [|n IH].
  - simpl. rewrite app_nil_r. reflexivity.
  - rewrite Nat.iter_succ, IH, concat_replicate_comm. reflexivity.
Qed.

Lemma length_concat_replicate P n :
  length (concat (replicate n P)) = n * length P.
Proof.
  induction n as [|n IH]; simpl; [reflexivity|].
  rewrite length_app, IH. reflexivity.
Qed.

Lemma elem_of_concat_replicate P n k : k ∈ concat (replicate n P) → k ∈ P.
Proof.
  induction n as [|n IH]; simpl; intros Hin.
  - apply elem_of_nil in Hin. destruct Hin.
  - apply elem_of_app in Hin as [Hin|Hin]; [exact Hin | exact (IH Hin)].
Qed.

Lemma elem_of_take_1 P n k : k ∈ take n P → k ∈ P.
Proof.
  intros Hin. rewrite <- (take_drop n P). apply elem_of_app. left. exact Hin.
Qed.

(** The closed form of [_fitted_passkey] for a passkey that is not empty. *)
Lemma fitted_passkey_closed self text :
  passkey self ≠ [] →
  _fitted_passkey self text =
    Ok (if bool_decide (length text ≤ length (passkey self))
        then take (length text) (passkey self)
        else concat (replicate (length text / length (passkey self)) (passkey self))
             ++ take (length text mod length (passkey self)) (passkey self)).
Proof.
  intros Hne. unfold _fitted_passkey.
  destruct (bool_decide (length text ≤ length (passkey self))) eqn:Hle; [reflexivity|].
  apply bool_decide_eq_false in Hle.
  assert (length (passkey self) ≠ 0) as Hk
    by (destruct (passkey self); [congruence | simpl; lia]).
  rewrite bool_decide_eq_false_2 by exact Hk.
  rewrite iter_append_replicate.
  assert (1 ≤ length text / length (passkey self)) as Hdiv
    by (apply Nat.div_le_lower_bound; lia).
  replace (S (length text / length (passkey self) - 1))
    with (length text / length (passkey self)) by lia.
  reflexivity.
Qed.

Lemma fitted_passkey_length self text fitted :
  _fitted_passkey self text = Ok fitted → length fitted = length text.
Proof.
  unfold _fitted_passkey.
  destruct (bool_decide (length text ≤ length (passkey self))) eqn:Hle.
  - apply bool_decide_eq_true in Hle. intros [= <-]. rewrite length_take. lia.
  - apply bool_decide_eq_false in Hle.
    destruct (bool_decide (length (passkey self) = 0)) eqn:Hk; [discriminate|].
    apply bool_decide_eq_false in Hk. intros [= <-].
    assert (1 ≤ length text / length (passkey self)) as Hdiv
      by (apply Nat.div_le_lower_bound; lia).
    rewrite iter_append_replicate, length_app, length_concat_replicate, length_take.
    replace (S (length text / length (passkey self) - 1))
      with (length text / length (passkey self)) by lia.
    pose proof (Nat.mod_upper_bound (length text) (length (passkey self)) Hk).
    pose proof (Nat.div_mod_eq (length text) (length (passkey self))).
    lia.
Qed.

Lemma fitted_passkey_elem self text fitted k :
  _fitted_passkey self text = Ok fitted → k ∈ fitted → k ∈ passkey self.
Proof.
  unfold _fitted_passkey.
  destruct (bool_decide (length text ≤ length (passkey self))).
  - intros [= <-]. apply elem_of_take_1.
  - destruct (bool_decide (length (passkey self) = 0)); [discriminate|].
    intros [= <-]. rewrite iter_append_replicate. intros Hin.
    apply elem_of_app in Hin as [Hin|Hin].
    + eapply elem_of_concat_replicate, Hin.
    + eapply elem_of_take_1, Hin.
Qed.

(** The fitted passkey depends on the length of the text only. *)
Lemma fitted_passkey_same_length self text text' :
  length text' = length text → _fitted_passkey self text' = _fitted_passkey self text.
Proof. intros Hlen. unfold _fitted_passkey. rewrite Hlen. reflexivity. Qed.

Lemma lookup_enumerate {B : Type} (l : list B) i j (b : B) :
  enumerate l !! i = Some (j, b) ↔ j = i ∧ l !! i = Some b.
Proof.
  unfold enumerate. rewrite list_lookup_imap.
  destruct (l !! i) as [b'|]; simpl; split.
  - intros [= -> ->]. split; reflexivity.
  - intros [-> [= ->]]. reflexivity.
  - discriminate.
  - intros [_ Hn]. discriminate.
Qed.

Lemma length_enumerate {B : Type} (l : list B) : length (enumerate l) = length l.
Proof. unfold enumerate. apply length_imap. Qed.

End Fitted.

(** ** Construction, validation and the two loops *)

Section Engine.
Context {A : Type} `{Countable A}.
Implicit Types (self : Vigenere A) (pk cs text ct : list A) (c k x y : A) (i j p q n : nat).

Lemma subseteq_list_to_set (l1 l2 : list A) :
  (list_to_set l1 : gset A) ⊆ list_to_set l2 ↔ ∀ c, c ∈ l1 → c ∈ l2.
Proof.
  split.
  - intros Hsub c Hin. apply (elem_of_list_to_set (C := gset A)).
    apply Hsub. apply elem_of_list_to_set. exact Hin.
  - intros Hall c Hin. apply elem_of_list_to_set. apply Hall.
    apply (elem_of_list_to_set (C := gset A)). exact Hin.
Qed.

Lemma init_Ok pk cs self :
  __init__ pk cs = Ok self ↔ (∀ c, c ∈ pk → c ∈ cs) ∧ self = engine pk cs.
Proof.
  unfold __init__. rewrite <- subseteq_list_to_set.
  destruct (bool_decide (list_to_set pk ⊆ list_to_set cs)) eqn:Hsub; simpl.
  - apply bool_decide_eq_true in Hsub. split.
    + intros [= <-]. split; [exact Hsub | reflexivity].
    + intros [_ ->]. reflexivity.
  - apply bool_decide_eq_false in Hsub. split; [discriminate|].
    intros [Hsub' _]. destruct (Hsub Hsub').
Qed.

Lemma init_Raise pk cs e :
  __init__ pk cs = Raise e ↔ (∃ c, c ∈ pk ∧ c ∉ cs) ∧ e = ValueError PasskeyNotSubset.
Proof.
  unfold __init__.
  destruct (bool_decide (list_to_set pk ⊆ list_to_set cs)) eqn:Hsub; simpl.
  - apply bool_decide_eq_true in Hsub. rewrite subseteq_list_to_set in Hsub.
    split; [discriminate|]. intros [(c & Hin & Hnin) _]. destruct (Hnin (Hsub c Hin)).
  - apply bool_decide_eq_false in Hsub. rewrite subseteq_list_to_set in Hsub.
    split.
    + intros [= <-]. split; [|reflexivity].
      rewrite <- (Forall_forall (λ c, c ∈ cs)) in Hsub.
      apply not_Forall_Exists in Hsub; [|intros c; apply _].
      apply Exists_exists in Hsub as (c & Hin & Hnin). exists c. split; assumption.
    + intros [_ ->]. reflexivity.
Qed.

Lemma validate_text_Ok self text :
  _validate_text self text = Ok () ↔
  ¬ substring (passkey self) text ∧ ∀ c, c ∈ text → c ∈ charset self.
Proof.
  unfold _validate_text. rewrite <- str_in_false, <- subseteq_list_to_set.
  destruct (str_in (passkey self) text); [split; [discriminate | intros [[=] _]]|].
  destruct (bool_decide (list_to_set text ⊆ list_to_set (charset self))) eqn:Hsub; simpl.
  - apply bool_decide_eq_true in Hsub. split; [intros _; split; [reflexivity | exact Hsub] | reflexivity].
  - apply bool_decide_eq_false in Hsub. split; [discriminate|].
    intros [_ Hsub']. destruct (Hsub Hsub').
Qed.

Lemma validate_text_contains self text :
  substring (passkey self) text →
  _validate_text self text = Raise (ValueError TextContainsPasskey).
Proof.
  intros Hsub. apply str_in_substring in Hsub.
  unfold _validate_text. rewrite Hsub. reflexivity.
Qed.

Lemma validate_text_not_in_charset self text :
  ¬ substring (passkey self) text →
  (∃ c, c ∈ text ∧ c ∉ charset self) →
  _validate_text self text =
    Raise (ValueError (TextNotInCharset (list_to_set text ∖ list_to_set (charset self)))).
Proof.
  intros Hsub (c & Hin & Hnin). apply str_in_false in Hsub.
  unfold _validate_text. rewrite Hsub.
  rewrite bool_decide_eq_false_2; [reflexivity|].
  rewrite subseteq_list_to_set. intros Hall. exact (Hnin (Hall c Hin)).
Qed.

Lemma elem_of_difference_list_to_set (l1 l2 : list A) c :
  c ∈ (list_to_set l1 : gset A) ∖ list_to_set l2 ↔ c ∈ l1 ∧ c ∉ l2.
Proof. rewrite elem_of_difference, !elem_of_list_to_set. reflexivity. Qed.

(** The loops append the result of each pass, in order. *)
Lemma encrypt_loop_Forall2 self text items (ys acc : list A) :
  Forall2 (λ it y, encrypt_at self text it.1 it.2 = Ok y) items ys →
  encrypt_loop self text items acc = Ok (acc ++ ys).
Proof.
  intros Hall. revert acc.
  induction Hall as [|[i k] y items ys Hhead _ IH]; intros acc; simpl.
  - rewrite app_nil_r. reflexivity.
  - simpl in Hhead. rewrite Hhead. simpl. rewrite IH, <- app_assoc. reflexivity.
Qed.

Lemma decrypt_loop_Forall2 self text items (ys acc : list A) :
  Forall2 (λ it y, decrypt_at self text it.1 it.2 = Ok y) items ys →
  decrypt_loop self text items acc = Ok (acc ++ ys).
Proof.
  intros Hall. revert acc.
  induction Hall as [|[i k] y items ys Hhead _ IH]; intros acc; simpl.
  - rewrite app_nil_r. reflexivity.
  - simpl in Hhead. rewrite Hhead. simpl. rewrite IH, <- app_assoc. reflexivity.
Qed.

(** Passes that all return give a list of results. *)
Lemma passes_total (step : nat * A → result A A) (items : list (nat * A)) :
  Forall (λ it, ∃ y, step it = Ok y) items →
  ∃ ys, Forall2 (λ it y, step it = Ok y) items ys.
Proof.
  induction 1 as [|it items [y Hy] _ [ys IH]].
  - exists []. constructor.
  - exists (y :: ys). constructor; assumption.
Qed.

(** One pass of [encrypt] on an engine that [__init__] returned: it finds
    the column of the passkey symbol and reads it in the row of the text
    symbol, which is the character set rotated to start at that symbol. *)
Lemma encrypt_at_engine pk cs text i k x :
  k ∈ cs → text !! i = Some x → x ∈ cs →
  ∃ col j y,
    str_index cs k = Ok col ∧ cs !! col = Some k ∧
    cs !! j = Some x ∧ dict_getitem (build_rows cs) x = Ok (rotation cs j) ∧
    rotation cs j !! col = Some y ∧
    encrypt_at (engine pk cs) text i k = Ok y.
Proof.
  intros Hk Hi Hx.
  destruct (str_index_elem cs k Hk) as (col & Hcol & Hcolk).
  destruct (comprehension_getitem (rotation cs) cs x Hx) as (j & Hj & Hrow).
  destruct (lookup_lt_is_Some_2 (rotation cs j) col) as [y Hy].
  { rewrite length_rotation. eapply lookup_lt_Some, Hcolk. }
  exists col, j, y. repeat (split; [assumption|]).
  unfold encrypt_at, getitem. simpl. rewrite Hcol. simpl. rewrite Hi. simpl.
  unfold build_rows. rewrite Hrow. simpl. rewrite Hy. reflexivity.
Qed.

(** Without repeated symbols, a pass of [encrypt] adds the two positions
    modulo the size of the character set. *)
Lemma encrypt_at_NoDup pk cs text i p q x k y :
  NoDup cs → cs !! p = Some x → cs !! q = Some k →
  cs !! ((p + q) mod length cs) = Some y →
  text !! i = Some x →
  encrypt_at (engine pk cs) text i k = Ok y.
Proof.
  intros Hnd Hp Hc Hy Hi.
  unfold encrypt_at, getitem. simpl.
  rewrite (str_index_NoDup cs k q Hnd Hc). simpl. rewrite Hi. simpl.
  unfold build_rows. rewrite (comprehension_NoDup_getitem _ cs p x Hnd Hp). simpl.
  rewrite lookup_rotation, Hy by (eapply lookup_lt_Some; eassumption). reflexivity.
Qed.

(** A pass of [decrypt] undoes it. *)
Lemma decrypt_at_NoDup pk cs ct i p q x k y :
  NoDup cs → cs !! p = Some x → cs !! q = Some k →
  cs !! ((p + q) mod length cs) = Some y →
  ct !! i = Some y →
  decrypt_at (engine pk cs) ct i k = Ok x.
Proof.
  intros Hnd Hp Hc Hy Hi.
  unfold decrypt_at, getitem. simpl.
  unfold build_rows. rewrite (comprehension_NoDup_getitem _ cs q k Hnd Hc). simpl.
  rewrite Hi. simpl.
  rewrite (str_index_NoDup (rotation cs q) y p).
  - simpl. rewrite Hp. reflexivity.
  - rewrite rotation_Permutation. exact Hnd.
  - rewrite lookup_rotation by (eapply lookup_lt_Some; eassumption).
    rewrite Nat.add_comm. exact Hy.
Qed.

End Engine.

(** ** Whole runs of [encrypt] and [decrypt] *)

Section Runs.
Context {A : Type} `{Countable A}.
Implicit Types (self : Vigenere A) (pk cs text ct fitted : list A) (c k x y : A).
Implicit Types (i j p q n : nat).

Lemma encrypt_unfold self text fitted :
  _validate_text self text = Ok () → _fitted_passkey self text = Ok fitted →
  encrypt self text = encrypt_loop self text (enumerate fitted) [].
Proof. intros Hval Hfit. unfold encrypt. rewrite Hval. simpl. rewrite Hfit. reflexivity. Qed.

Lemma decrypt_unfold self text fitted :
  _validate_text self text = Ok () → _fitted_passkey self text = Ok fitted →
  decrypt self text = decrypt_loop self text (enumerate fitted) [].
Proof. intros Hval Hfit. unfold decrypt. rewrite Hval. simpl. rewrite Hfit. reflexivity. Qed.

(** A text that passes validation is checked against a passkey that is
    not empty. *)
Lemma validate_text_passkey self text :
  _validate_text self text = Ok () → passkey self ≠ [].
Proof.
  intros Hval Hnil. apply validate_text_Ok in Hval as [Hsub _].
  apply Hsub. rewrite Hnil. exists [], text. reflexivity.
Qed.

Lemma validate_text_fitted self text :
  _validate_text self text = Ok () →
  ∃ fitted, _fitted_passkey self text = Ok fitted ∧ length fitted = length text.
Proof.
  intros Hval. pose proof (fitted_passkey_closed self text (validate_text_passkey _ _ Hval)) as Hfit.
  eexists. split; [exact Hfit|]. eapply fitted_passkey_length, Hfit.
Qed.

(** On an engine that [__init__] returned, [encrypt] returns on every text
    that passes validation, and it returns the results of the passes. *)
Lemma encrypt_engine pk cs text :
  (∀ c, c ∈ pk → c ∈ cs) → _validate_text (engine pk cs) text = Ok () →
  ∃ fitted ct,
    _fitted_passkey (engine pk cs) text = Ok fitted ∧ length fitted = length text ∧
    encrypt (engine pk cs) text = Ok ct ∧
    Forall2 (λ it y, encrypt_at (engine pk cs) text it.1 it.2 = Ok y) (enumerate fitted) ct.
Proof.
  intros Hpk Hval. destruct (validate_text_fitted _ _ Hval) as (fitted & Hfit & Hlen).
  pose proof Hval as Hval'. apply validate_text_Ok in Hval' as [_ Htext]. simpl in Htext.
  destruct (passes_total (λ it, encrypt_at (engine pk cs) text it.1 it.2) (enumerate fitted))
    as [ct Hct].
  { apply Forall_lookup. intros i [j k] Hik. apply lookup_enumerate in Hik as [-> Hk]. simpl.
    destruct (lookup_lt_is_Some_2 text i) as [x Hx].
    { rewrite <- Hlen. eapply lookup_lt_Some, Hk. }
    destruct (encrypt_at_engine pk cs text i k x) as (col & j & y & _ & _ & _ & _ & _ & Hy).
    - apply Hpk. eapply (fitted_passkey_elem (engine pk cs)); [exact Hfit|].
      eapply list_elem_of_lookup_2, Hk.
    - exact Hx.
    - apply Htext. eapply list_elem_of_lookup_2, Hx.
    - exists y. exact Hy. }
  exists fitted, ct. repeat (split; [assumption|]). split; [|exact Hct].
  rewrite (encrypt_unfold _ _ _ Hval Hfit). apply (encrypt_loop_Forall2 _ _ _ ct []). exact Hct.
Qed.

Lemma positions_NoDup cs x k :
  x ∈ cs → k ∈ cs →
  ∃ p q y, cs !! p = Some x ∧ cs !! q = Some k ∧ cs !! ((p + q) mod length cs) = Some y.
Proof.
  intros Hx Hk.
  apply list_elem_of_lookup_1 in Hx as [p Hp]. apply list_elem_of_lookup_1 in Hk as [q Hq].
  pose proof (lookup_lt_Some _ _ _ Hp) as Hlt.
  destruct (lookup_lt_is_Some_2 cs ((p + q) mod length cs)) as [y Hy].
  { apply Nat.mod_upper_bound. lia. }
  exists p, q, y. repeat split; assumption.
Qed.

End Runs.

(** * The claims *)

Section Claims.
Context {A : Type} `{Countable A}.
Implicit Types (self : Vigenere A) (pk cs text ct fitted row : list A) (c k x y : A).
Implicit Types (i j p q n : nat).

(** C1 (as amended): on an engine built from a character set without
    repeated symbols and a passkey of symbols of the character set, for a
    text of symbols of the character set that does not contain the passkey,
    [encrypt] returns a ciphertext [ct]; when [ct] does not contain the
    passkey either, [decrypt ct] returns the text, and when it does,
    [decrypt ct] raises the error of the validation. *)
Theorem decrypt_encrypt pk cs self text :
  NoDup cs → __init__ pk cs = Ok self →
  (∀ c, c ∈ text → c ∈ cs) → ¬ substring pk text →
  ∃ ct, encrypt self text = Ok ct ∧
        (¬ substring pk ct → decrypt self ct = Ok text) ∧
        (substring pk ct → decrypt self ct = Raise (ValueError TextContainsPasskey)).
Proof.
  intros Hnd Hinit Htext Hsub. apply init_Ok in Hinit as [Hpk ->].
  assert (_validate_text (engine pk cs) text = Ok ()) as Hval
    by (apply validate_text_Ok; split; assumption).
  destruct (encrypt_engine pk cs text Hpk Hval) as (fitted & ct & Hfit & Hlen & Henc & Hct).
  exists ct. split; [exact Henc|]. split.
  - intros Hsub'.
    assert (length ct = length text) as Hlen'.
    { rewrite <- (Forall2_length _ _ _ Hct), length_enumerate. exact Hlen. }
    (* what each pass of [encrypt] wrote, and that [decrypt] reads it back *)
    assert (∀ i x y, text !! i = Some x → ct !! i = Some y →
              y ∈ cs ∧ ∃ k, fitted !! i = Some k ∧
              decrypt_at (engine pk cs) ct i k = Ok x) as Hback.
    { intros i x y Hx Hy.
      destruct (lookup_lt_is_Some_2 fitted i) as [k Hk].
      { rewrite Hlen. eapply lookup_lt_Some, Hx. }
      assert (enumerate fitted !! i = Some (i, k)) as Hik
        by (apply lookup_enumerate; split; [reflexivity | exact Hk]).
      pose proof (Forall2_lookup_lr _ _ _ _ _ _ Hct Hik Hy) as Hpass. simpl in Hpass.
      destruct (positions_NoDup cs x k) as (p & q & y' & Hp & Hq & Hy').
      { apply Htext. eapply list_elem_of_lookup_2, Hx. }
      { apply Hpk. eapply (fitted_passkey_elem (engine pk cs)); [exact Hfit|].
        eapply list_elem_of_lookup_2, Hk. }
      rewrite (encrypt_at_NoDup pk cs text i p q x k y' Hnd Hp Hq Hy' Hx) in Hpass.
      injection Hpass as ->. split.
      - eapply list_elem_of_lookup_2, Hy'.
      - exists k. split; [exact Hk|].
        exact (decrypt_at_NoDup pk cs ct i p q x k y Hnd Hp Hq Hy' Hy). }
    assert (_validate_text (engine pk cs) ct = Ok ()) as Hval'.
    { apply validate_text_Ok. split; [exact Hsub'|]. simpl. intros y Hy.
      apply list_elem_of_lookup_1 in Hy as [i Hy].
      destruct (lookup_lt_is_Some_2 text i) as [x Hx].
      { rewrite <- Hlen'. eapply lookup_lt_Some, Hy. }
      exact (proj1 (Hback i x y Hx Hy)). }
    assert (_fitted_passkey (engine pk cs) ct = Ok fitted) as Hfit'
      by (rewrite (fitted_passkey_same_length _ text ct Hlen'); exact Hfit).
    rewrite (decrypt_unfold _ _ _ Hval' Hfit').
    apply (decrypt_loop_Forall2 _ _ _ text []).
    apply Forall2_same_length_lookup_2.
    + rewrite length_enumerate. exact Hlen.
    + intros i [j k] x Hik Hx. apply lookup_enumerate in Hik as [-> Hk]. simpl.
      destruct (lookup_lt_is_Some_2 ct i) as [y Hy].
      { rewrite Hlen'. eapply lookup_lt_Some, Hx. }
      destruct (Hback i x y Hx Hy) as (_ & k' & Hk' & Hdec).
      rewrite Hk in Hk'. injection Hk' as <-. exact Hdec.
  - intros Hsub'. unfold decrypt.
    rewrite (validate_text_contains (engine pk cs) ct Hsub'). reflexivity.
Qed.

(** C2: with a character set of [n] symbols without repetition, a pass of
    [encrypt] on the symbol at position [p] with the passkey symbol at
    position [q] gives the symbol at position [(p + q) mod n]; a pass of
    [decrypt] on that symbol with the same passkey symbol finds it at
    position [p] of the row of the passkey symbol and gives back the
    symbol at position [p]. *)
Theorem encrypt_at_decrypt_at pk cs self p q x k :
  NoDup cs → __init__ pk cs = Ok self →
  cs !! p = Some x → cs !! q = Some k →
  ∃ y row,
    cs !! ((p + q) mod length cs) = Some y ∧
    (∀ text i, text !! i = Some x → encrypt_at self text i k = Ok y) ∧
    dict_getitem (rows self) k = Ok row ∧ str_index row y = Ok p ∧
    (∀ ct i, ct !! i = Some y → decrypt_at self ct i k = Ok x).
Proof.
  intros Hnd Hinit Hp Hq. apply init_Ok in Hinit as [_ ->].
  destruct (lookup_lt_is_Some_2 cs ((p + q) mod length cs)) as [y Hy].
  { apply Nat.mod_upper_bound. pose proof (lookup_lt_Some _ _ _ Hp). lia. }
  exists y, (rotation cs q). split; [exact Hy|]. split; [|split; [|split]].
  - intros text i Hx. exact (encrypt_at_NoDup pk cs text i p q x k y Hnd Hp Hq Hy Hx).
  - simpl. apply comprehension_NoDup_getitem; assumption.
  - apply str_index_NoDup.
    + rewrite rotation_Permutation. exact Hnd.
    + rewrite lookup_rotation by (eapply lookup_lt_Some; eassumption).
      rewrite Nat.add_comm. exact Hy.
  - intros ct i Hi. exact (decrypt_at_NoDup pk cs ct i p q x k y Hnd Hp Hq Hy Hi).
Qed.

(** C3: on a text that passes validation, [encrypt] returns a ciphertext of
    the length of the text, whose symbol at each position [i] is
    [rows[text[i]][col]], with [col] the index in the character set of the
    symbol at [i] of the fitted passkey. *)
Theorem encrypt_spec pk cs self text :
  __init__ pk cs = Ok self → _validate_text self text = Ok () →
  ∃ fitted ct,
    _fitted_passkey self text = Ok fitted ∧
    encrypt self text = Ok ct ∧
    length ct = length text ∧
    ∀ i, i < length text →
      ∃ k col x row y,
        fitted !! i = Some k ∧ str_index (charset self) k = Ok col ∧
        text !! i = Some x ∧ dict_getitem (rows self) x = Ok row ∧
        row !! col = Some y ∧ ct !! i = Some y.
Proof.
  intros Hinit Hval. apply init_Ok in Hinit as [Hpk ->].
  destruct (encrypt_engine pk cs text Hpk Hval) as (fitted & ct & Hfit & Hlen & Henc & Hct).
  assert (length ct = length text) as Hlen'.
  { rewrite <- (Forall2_length _ _ _ Hct), length_enumerate. exact Hlen. }
  exists fitted, ct. repeat (split; [assumption|]).
  intros i Hi.
  destruct (lookup_lt_is_Some_2 fitted i) as [k Hk]; [lia|].
  destruct (lookup_lt_is_Some_2 text i) as [x Hx]; [lia|].
  destruct (lookup_lt_is_Some_2 ct i) as [y Hy]; [lia|].
  assert (enumerate fitted !! i = Some (i, k)) as Hik
    by (apply lookup_enumerate; split; [reflexivity | exact Hk]).
  pose proof (Forall2_lookup_lr _ _ _ _ _ _ Hct Hik Hy) as Hpass. simpl in Hpass.
  apply validate_text_Ok in Hval as [_ Htext]. simpl in Htext.
  destruct (encrypt_at_engine pk cs text i k x) as (col & j & y' & Hcol & _ & _ & Hrow & Hy' & Hpass').
  - apply Hpk. eapply (fitted_passkey_elem (engine pk cs)); [exact Hfit|].
    eapply list_elem_of_lookup_2, Hk.
  - exact Hx.
  - apply Htext. eapply list_elem_of_lookup_2, Hx.
  - rewrite Hpass' in Hpass. injection Hpass as ->.
    exists k, col, x, (rotation cs j), y. repeat split; assumption.
Qed.

(** C4: for a passkey [P] of [k > 0] symbols and a text of [L] symbols,
    [_fitted_passkey] returns the first [L] symbols of [P] when [k >= L],
    and otherwise [P] repeated [L / k] times followed by the first
    [L mod k] symbols of [P]; in both cases it has [L] symbols. *)
Theorem fitted_passkey_spec self text :
  passkey self ≠ [] →
  ∃ fitted,
    _fitted_passkey self text = Ok fitted ∧
    (length text ≤ length (passkey self) →
       fitted = take (length text) (passkey self)) ∧
    (length (passkey self) < length text →
       fitted = concat (replicate (length text / length (passkey self)) (passkey self))
                ++ take (length text mod length (passkey self)) (passkey self)) ∧
    length fitted = length text.
Proof.
  intros Hne. pose proof (fitted_passkey_closed self text Hne) as Hfit.
  eexists. split; [exact Hfit|]. split; [|split].
  - intros Hle. rewrite bool_decide_eq_true_2 by exact Hle. reflexivity.
  - intros Hlt. rewrite bool_decide_eq_false_2 by lia. reflexivity.
  - eapply fitted_passkey_length, Hfit.
Qed.

(** C5: for a character set [cs] of [n] symbols without repetition, the
    table [__init__] builds binds the symbol at position [i] to
    [cs[i:] + cs[:i]]; every row is a permutation of [cs]; the row of
    position 0 is [cs]; the keys are the symbols of [cs] in order, so there
    are [n] rows, and every row has [n] symbols. *)
Theorem rows_spec pk cs self :
  NoDup cs → __init__ pk cs = Ok self →
  (∀ i c, cs !! i = Some c →
     dict_getitem (rows self) c = Ok (drop i cs ++ take i cs)) ∧
  (∀ c row, (c, row) ∈ rows self → row ≡ₚ cs) ∧
  (∀ c, cs !! 0 = Some c → dict_getitem (rows self) c = Ok cs) ∧
  (rows self).*1 = cs ∧
  length (rows self) = length cs ∧
  (∀ c row, (c, row) ∈ rows self → length row = length cs).
Proof.
  intros Hnd Hinit. apply init_Ok in Hinit as [_ ->]. simpl. unfold build_rows.
  split; [|split; [|split; [|split; [|split]]]].
  - intros i c Hi. exact (comprehension_NoDup_getitem (rotation cs) cs i c Hnd Hi).
  - intros c row Hin. apply elem_of_comprehension in Hin as (i & _ & ->).
    apply rotation_Permutation.
  - intros c H0. rewrite (comprehension_NoDup_getitem (rotation cs) cs 0 c Hnd H0).
    rewrite rotation_0. reflexivity.
  - rewrite (comprehension_NoDup _ _ Hnd), fmap_imap.
    rewrite (imap_ext _ (const id) cs) by reflexivity.
    rewrite imap_const. apply list_fmap_id.
  - rewrite (comprehension_NoDup _ _ Hnd). apply length_imap.
  - intros c row Hin. apply elem_of_comprehension in Hin as (i & _ & ->).
    apply length_rotation.
Qed.

(** C6 (as amended): [_validate_text] raises the passkey error when the
    passkey occurs in the text as a contiguous run; when it does not and
    some symbol of the text is not in the character set, it raises the
    character error, which carries exactly the symbols of the text that are
    not in the character set; otherwise it returns. What it raises,
    [encrypt] and [decrypt] raise in place of a result. *)
Theorem validate_text_spec self text :
  (substring (passkey self) text →
     _validate_text self text = Raise (ValueError TextContainsPasskey)) ∧
  (¬ substring (passkey self) text → (∃ c, c ∈ text ∧ c ∉ charset self) →
     ∃ diff, _validate_text self text = Raise (ValueError (TextNotInCharset diff)) ∧
             ∀ c, c ∈ diff ↔ c ∈ text ∧ c ∉ charset self) ∧
  (¬ substring (passkey self) text → (∀ c, c ∈ text → c ∈ charset self) →
     _validate_text self text = Ok ()) ∧
  (∀ e, _validate_text self text = Raise e →
     encrypt self text = Raise e ∧ decrypt self text = Raise e).
Proof.
  split; [|split; [|split]].
  - apply validate_text_contains.
  - intros Hsub Hbad. eexists. split.
    + apply validate_text_not_in_charset; assumption.
    + apply elem_of_difference_list_to_set.
  - intros Hsub Hall. apply validate_text_Ok. split; assumption.
  - intros e He. unfold encrypt, decrypt. rewrite He. split; reflexivity.
Qed.

(** C7: [__init__] raises its error exactly when some symbol of the passkey
    is not in the character set; it raises nothing else, and the engine it
    returns holds the passkey and the character set it was given. *)
Theorem init_spec pk cs :
  (__init__ pk cs = Raise (ValueError PasskeyNotSubset) ↔ ∃ c, c ∈ pk ∧ c ∉ cs) ∧
  match __init__ pk cs with
  | Ok self => passkey self = pk ∧ charset self = cs
  | Raise e => e = ValueError PasskeyNotSubset
  end.
Proof.
  split.
  - rewrite init_Raise. split; [intros [Hex _]; exact Hex | intros Hex; split; [exact Hex | reflexivity]].
  - destruct (__init__ pk cs) as [self|e] eqn:Hinit.
    + apply init_Ok in Hinit as [_ ->]. split; reflexivity.
    + apply init_Raise in Hinit as [_ ->]. reflexivity.
Qed.

(** C8: when the passkey is the one symbol that comes first in the
    character set, [encrypt] returns every text that passes validation
    unchanged. *)
Theorem encrypt_first_symbol c0 rest self text :
  __init__ [c0] (c0 :: rest) = Ok self → _validate_text self text = Ok () →
  encrypt self text = Ok text.
Proof.
  intros Hinit Hval. apply init_Ok in Hinit as [Hpk ->].
  destruct (validate_text_fitted _ _ Hval) as (fitted & Hfit & Hlen).
  rewrite (encrypt_unfold _ _ _ Hval Hfit).
  apply (encrypt_loop_Forall2 _ _ _ text []).
  apply Forall2_same_length_lookup_2; [rewrite length_enumerate; exact Hlen|].
  intros i [j k] x Hik Hx. apply lookup_enumerate in Hik as [-> Hk]. simpl.
  assert (k = c0) as ->.
  { apply list_elem_of_lookup_2 in Hk.
    apply (fitted_passkey_elem (engine [c0] (c0 :: rest)) _ _ _ Hfit) in Hk.
    simpl in Hk. apply list_elem_of_singleton in Hk. exact Hk. }
  apply validate_text_Ok in Hval as [_ Htext]. simpl in Htext.
  destruct (encrypt_at_engine [c0] (c0 :: rest) text i c0 x)
    as (col & j & y & Hcol & _ & Hj & _ & Hy & Hpass).
  - apply elem_of_cons. left. reflexivity.
  - exact Hx.
  - apply Htext. eapply list_elem_of_lookup_2, Hx.
  - assert (str_index (c0 :: rest) c0 = Ok 0) as H0.
    { apply str_index_Ok. split; [reflexivity | intros j' Hj'; lia]. }
    rewrite H0 in Hcol. injection Hcol as <-.
    rewrite (lookup_rotation_0 _ _ _ Hj) in Hy. injection Hy as <-. exact Hpass.
Qed.

(** C10: [__init__] returns an engine on the empty passkey, whatever the
    character set, and on that engine [encrypt] and [decrypt] raise the
    passkey error on every text. *)
Theorem empty_passkey cs :
  ∃ self, __init__ [] cs = Ok self ∧
    ∀ text, encrypt self text = Raise (ValueError TextContainsPasskey) ∧
            decrypt self text = Raise (ValueError TextContainsPasskey).
Proof.
  exists (engine [] cs). split.
  - apply init_Ok. split; [|reflexivity]. intros c Hin. apply elem_of_nil in Hin. destruct Hin.
  - intros text. unfold encrypt, decrypt, _validate_text. simpl.
    rewrite str_in_nil. split; reflexivity.
Qed.

Section ShowClaim.
Variable newline : A.
Variable repr : A → list A.

Lemma foldl_append {B : Type} (f : B → list A) (l : list B) (acc : list A) :
  foldl (λ table item, table ++ f item) acc l = acc ++ concat (map f l).
Proof.
  revert acc. induction l as [|b l IH]; intros acc; simpl.
  - rewrite app_nil_r. reflexivity.
  - rewrite IH, <- app_assoc. reflexivity.
Qed.

(** C9: [show] raises its error exactly when the separator occurs in the
    character set or is the newline; it raises nothing else, and the table
    it returns has, for each item of [rows] in order, the line made of the
    quoted key, the separator, the quoted symbols of the row joined by the
    separator, and a newline. *)
Theorem show_spec self sep :
  (show newline repr self sep = Raise (ValueError BadSeparator) ↔
     substring sep (charset self) ∨ sep = [newline]) ∧
  match show newline repr self sep with
  | Ok table =>
      table = concat (map (λ '(key, vals),
                repr key ++ sep ++ str_join sep (map repr vals) ++ [newline])
              (rows self))
  | Raise e => e = ValueError BadSeparator
  end.
Proof.
  unfold show. rewrite <- str_in_substring.
  destruct (str_in sep (charset self)) eqn:Hin; simpl.
  - split; [|reflexivity]. split; [intros _; left; reflexivity | reflexivity].
  - destruct (bool_decide (sep = [newline])) eqn:Hnl.
    + apply bool_decide_eq_true in Hnl. split; [|reflexivity].
      split; [intros _; right; exact Hnl | reflexivity].
    + apply bool_decide_eq_false in Hnl. split.
      * split; [discriminate|]. intros [Hfalse|Heq]; [discriminate | destruct (Hnl Heq)].
      * rewrite foldl_append. simpl. f_equal. apply map_ext. intros [key vals].
        unfold show_line. simpl. rewrite <- !app_assoc. reflexivity.
Qed.

End ShowClaim.

End Claims.

(** * The claims on concrete engines *)

(** C1 on the docstring's passkey and text, over the default character
    set. *)
Lemma decrypt_encrypt_witness :
  NoDup CHARSET ∧
  __init__ (lit "p@sSw0rd") CHARSET = Ok (engine (lit "p@sSw0rd") CHARSET) ∧
  (∀ c, c ∈ lit "hello world" → c ∈ CHARSET) ∧
  ¬ substring (lit "p@sSw0rd") (lit "hello world") ∧
  bind (encrypt (engine (lit "p@sSw0rd") CHARSET) (lit "hello world"))
       (decrypt (engine (lit "p@sSw0rd") CHARSET))
  = Ok (lit "hello world").
Proof.
  assert (NoDup CHARSET) as Hnd by decide_by_computation.
  assert (__init__ (lit "p@sSw0rd") CHARSET = Ok (engine (lit "p@sSw0rd") CHARSET))
    as Hinit by by_computation.
  assert (∀ c, c ∈ lit "hello world" → c ∈ CHARSET) as Htext by all_in_charset.
  assert (¬ substring (lit "p@sSw0rd") (lit "hello world")) as Hsub by no_substring.
  repeat (split; [assumption|]).
  destruct (decrypt_encrypt _ _ _ _ Hnd Hinit Htext Hsub) as (ct & Henc & Hdec & _).
  rewrite Henc. simpl. apply Hdec.
  assert (ct = lit "w^D3KZNrG v") as ->.
  { assert (encrypt (engine (lit "p@sSw0rd") CHARSET) (lit "hello world")
            = Ok (lit "w^D3KZNrG v")) as Henc' by by_computation.
    rewrite Henc in Henc'. injection Henc' as ->. reflexivity. }
  no_substring.
Defined.

(** C1 as it was stated fails: over ["ab"] with the passkey ["b"], the text
    ["a"] passes validation and encrypts to ["b"], which is the passkey, so
    [decrypt] raises on it. *)
Lemma decrypt_encrypt_unamended_fails :
  NoDup (lit "ab") ∧
  __init__ (lit "b") (lit "ab") = Ok (engine (lit "b") (lit "ab")) ∧
  (∀ c, c ∈ lit "a" → c ∈ lit "ab") ∧
  ¬ substring (lit "b") (lit "a") ∧
  encrypt (engine (lit "b") (lit "ab")) (lit "a") = Ok (lit "b") ∧
  decrypt (engine (lit "b") (lit "ab")) (lit "b") = Raise (ValueError TextContainsPasskey) ∧
  bind (encrypt (engine (lit "b") (lit "ab")) (lit "a")) (decrypt (engine (lit "b") (lit "ab")))
  ≠ Ok (lit "a").
Proof.
  split; [decide_by_computation|]. split; [by_computation|].
  split; [all_in_charset|]. split; [no_substring|].
  split; [by_computation|]. split; [by_computation|].
  vm_compute. discriminate.
Qed.

(** C2 over ["abcd"]: the text symbol ["d"] (position 3) and the passkey
    symbol ["c"] (position 2) give the symbol at position [5 mod 4]. *)
Lemma encrypt_at_decrypt_at_witness :
  NoDup (lit "abcd") ∧
  __init__ (lit "c") (lit "abcd") = Ok (engine (lit "c") (lit "abcd")) ∧
  lit "abcd" !! 3 = Some "d"%char ∧ lit "abcd" !! 2 = Some "c"%char ∧
  ∃ y row,
    lit "abcd" !! ((3 + 2) mod length (lit "abcd")) = Some y ∧
    (∀ text i, text !! i = Some "d"%char →
       encrypt_at (engine (lit "c") (lit "abcd")) text i "c"%char = Ok y) ∧
    dict_getitem (rows (engine (lit "c") (lit "abcd"))) "c"%char = Ok row ∧
    str_index row y = Ok 3 ∧
    (∀ ct i, ct !! i = Some y →
       decrypt_at (engine (lit "c") (lit "abcd")) ct i "c"%char = Ok "d"%char).
Proof.
  assert (NoDup (lit "abcd")) as Hnd by decide_by_computation.
  assert (__init__ (lit "c") (lit "abcd") = Ok (engine (lit "c") (lit "abcd")))
    as Hinit by by_computation.
  repeat (split; [first [assumption | reflexivity]|]).
  apply (encrypt_at_decrypt_at (lit "c") (lit "abcd") _ 3 2 _ _ Hnd Hinit);
    reflexivity.
Defined.

(** C3 on the docstring's engine and text. *)
Lemma encrypt_spec_witness :
  __init__ (lit "p@sSw0rd") CHARSET = Ok (engine (lit "p@sSw0rd") CHARSET) ∧
  _validate_text (engine (lit "p@sSw0rd") CHARSET) (lit "hello world") = Ok () ∧
  ∃ fitted ct,
    _fitted_passkey (engine (lit "p@sSw0rd") CHARSET) (lit "hello world") = Ok fitted ∧
    encrypt (engine (lit "p@sSw0rd") CHARSET) (lit "hello world") = Ok ct ∧
    length ct = length (lit "hello world") ∧
    ∀ i, i < length (lit "hello world") →
      ∃ k col x row y,
        fitted !! i = Some k ∧
        str_index (charset (engine (lit "p@sSw0rd") CHARSET)) k = Ok col ∧
        lit "hello world" !! i = Some x ∧
        dict_getitem (rows (engine (lit "p@sSw0rd") CHARSET)) x = Ok row ∧
        row !! col = Some y ∧ ct !! i = Some y.
Proof.
  assert (__init__ (lit "p@sSw0rd") CHARSET = Ok (engine (lit "p@sSw0rd") CHARSET))
    as Hinit by by_computation.
  assert (_validate_text (engine (lit "p@sSw0rd") CHARSET) (lit "hello world") = Ok ())
    as Hval by by_computation.
  repeat (split; [assumption|]).
  exact (encrypt_spec _ _ _ _ Hinit Hval).
Defined.

(** C4 on the docstring's example of [_fitted_passkey]: the passkey
    ["abc"] fitted to the text ["1234"] is ["abca"]. *)
Lemma fitted_passkey_spec_witness :
  passkey (engine (lit "abc") CHARSET) ≠ [] ∧
  _fitted_passkey (engine (lit "abc") CHARSET) (lit "1234") = Ok (lit "abca") ∧
  length (lit "abca") = length (lit "1234").
Proof.
  assert (passkey (engine (lit "abc") CHARSET) ≠ []) as Hne by (simpl; discriminate).
  split; [exact Hne|].
  destruct (fitted_passkey_spec (engine (lit "abc") CHARSET) (lit "1234") Hne)
    as (fitted & Hfit & _ & Hlong & Hlen).
  rewrite Hfit, Hlong by (simpl; lia). split; reflexivity.
Defined.

(** C5 on the default character set. *)
Lemma rows_spec_witness :
  NoDup CHARSET ∧
  __init__ (lit "p@sSw0rd") CHARSET = Ok (engine (lit "p@sSw0rd") CHARSET) ∧
  dict_getitem (rows (engine (lit "p@sSw0rd") CHARSET)) "a"%char = Ok CHARSET ∧
  (rows (engine (lit "p@sSw0rd") CHARSET)).*1 = CHARSET ∧
  length (rows (engine (lit "p@sSw0rd") CHARSET)) = 95.
Proof.
  assert (NoDup CHARSET) as Hnd by decide_by_computation.
  assert (__init__ (lit "p@sSw0rd") CHARSET = Ok (engine (lit "p@sSw0rd") CHARSET))
    as Hinit by by_computation.
  repeat (split; [assumption|]).
  destruct (rows_spec _ _ _ Hnd Hinit) as (_ & _ & Hfirst & Hkeys & Hlen & _).
  split; [apply Hfirst; reflexivity|]. split; [exact Hkeys | exact Hlen].
Defined.

(** C6 over ["ab"] with the passkey ["b"]: a text with the passkey, a text
    with a foreign symbol and no passkey, and a text that passes. *)
Lemma validate_text_spec_witness :
  _validate_text (engine (lit "b") (lit "ab")) (lit "abc")
    = Raise (ValueError TextContainsPasskey) ∧
  (∃ diff, _validate_text (engine (lit "b") (lit "ab")) (lit "acca")
             = Raise (ValueError (TextNotInCharset diff)) ∧
           ∀ c, c ∈ diff ↔ c ∈ lit "acca" ∧ c ∉ lit "ab") ∧
  _validate_text (engine (lit "b") (lit "ab")) (lit "aa") = Ok ().
Proof.
  split; [|split].
  - apply (validate_text_spec (engine (lit "b") (lit "ab")) (lit "abc")).
    apply str_in_substring. by_computation.
  - apply (validate_text_spec (engine (lit "b") (lit "ab")) (lit "acca")).
    + no_substring.
    + exists "c"%char. split; decide_by_computation.
  - apply (validate_text_spec (engine (lit "b") (lit "ab")) (lit "aa")).
    + no_substring.
    + all_in_charset.
Defined.

(** C6 as it was stated fails: the text ["bc"] has a symbol that is not in
    ["ab"], and the error is the passkey error, since the passkey ["b"]
    occurs in it and is looked for first. *)
Lemma validate_text_unamended_fails :
  (∃ c, c ∈ lit "bc" ∧ c ∉ charset (engine (lit "b") (lit "ab"))) ∧
  _validate_text (engine (lit "b") (lit "ab")) (lit "bc")
    = Raise (ValueError TextContainsPasskey) ∧
  ∀ diff, _validate_text (engine (lit "b") (lit "ab")) (lit "bc")
          ≠ Raise (ValueError (TextNotInCharset diff)).
Proof.
  assert (_validate_text (engine (lit "b") (lit "ab")) (lit "bc")
          = Raise (ValueError TextContainsPasskey)) as Hval by by_computation.
  split; [|split].
  - exists "c"%char. split; decide_by_computation.
  - exact Hval.
  - intros diff. rewrite Hval. discriminate.
Qed.

(** C7 on a passkey with a symbol that is not in the character set. *)
Lemma init_spec_witness :
  (∃ c, c ∈ lit "abz" ∧ c ∉ lit "abc") ∧
  __init__ (lit "abz") (lit "abc") = Raise (ValueError PasskeyNotSubset).
Proof.
  assert (∃ c, c ∈ lit "abz" ∧ c ∉ lit "abc") as Hex
    by (exists "z"%char; split; decide_by_computation).
  split; [exact Hex|].
  apply (proj1 (init_spec (lit "abz") (lit "abc"))). exact Hex.
Defined.

(** C8 over ["abcd"] with the passkey ["a"]. *)
Lemma encrypt_first_symbol_witness :
  __init__ (lit "a") (lit "abcd") = Ok (engine (lit "a") (lit "abcd")) ∧
  _validate_text (engine (lit "a") (lit "abcd")) (lit "dbcbd") = Ok () ∧
  encrypt (engine (lit "a") (lit "abcd")) (lit "dbcbd") = Ok (lit "dbcbd").
Proof.
  assert (__init__ (lit "a") (lit "abcd") = Ok (engine (lit "a") (lit "abcd")))
    as Hinit by by_computation.
  assert (_validate_text (engine (lit "a") (lit "abcd")) (lit "dbcbd") = Ok ())
    as Hval by by_computation.
  repeat (split; [assumption|]).
  exact (encrypt_first_symbol "a"%char (lit "bcd") _ _ Hinit Hval).
Defined.

(** C9 on the table of ["ab"]: a separator of the character set is refused,
    and with a tab the table has the two rows, one on each line. *)
Lemma show_spec_witness :
  show newline_char quoted (engine (lit "a") (lit "ab")) (lit "b")
    = Raise (ValueError BadSeparator) ∧
  show newline_char quoted (engine (lit "a") (lit "ab")) [newline_char]
    = Raise (ValueError BadSeparator) ∧
  show newline_char quoted (engine (lit "a") (lit "ab")) [tab_char]
    = Ok (lit "'a'" ++ [tab_char] ++ lit "'a'" ++ [tab_char] ++ lit "'b'" ++ [newline_char]
          ++ lit "'b'" ++ [tab_char] ++ lit "'b'" ++ [tab_char] ++ lit "'a'" ++ [newline_char]).
Proof.
  split; [|split].
  - apply (show_spec newline_char quoted (engine (lit "a") (lit "ab")) (lit "b")).
    left. apply str_in_substring. by_computation.
  - apply (show_spec newline_char quoted (engine (lit "a") (lit "ab")) [newline_char]).
    right. reflexivity.
  - pose proof (proj2 (show_spec newline_char quoted (engine (lit "a") (lit "ab")) [tab_char]))
      as Htable.
    destruct (show newline_char quoted (engine (lit "a") (lit "ab")) [tab_char])
      as [table|e] eqn:Hshow.
    + rewrite Htable. reflexivity.
    + exfalso. revert Hshow. vm_compute. discriminate.
Defined.

(** C10 on the default character set and the empty text. *)
Lemma empty_passkey_witness :
  ∃ self, __init__ [] CHARSET = Ok self ∧
    encrypt self [] = Raise (ValueError TextContainsPasskey) ∧
    decrypt self (lit "hello world") = Raise (ValueError TextContainsPasskey).
Proof.
  destruct (empty_passkey CHARSET) as (self & Hinit & Hall).
  exists self. split; [exact Hinit|]. split; apply Hall.
Defined.

(** * Further properties of the code *)

(** ** [_fitted_passkey] *)

Section FittedMore.
Context {A : Type} `{Countable A}.
Implicit Types (self : Vigenere A) (P text fitted : list A) (k : A) (i d n : nat).

Lemma lookup_concat_replicate P d i :
  i < d * length P → concat (replicate d P) !! i = P !! (i mod length P).
Proof.
  revert i. induction d as [|d IH]; intros i Hi; simpl in *; [lia|].
  destruct (decide (i < length P)) as [Hlt|Hge].
  - rewrite lookup_app_l, Nat.mod_small by lia. reflexivity.
  - rewrite lookup_app_r, IH by lia. f_equal.
    replace i with ((i - length P) + 1 * length P) at 2 by lia.
    rewrite Nat.Div0.mod_add. reflexivity.
Qed.

(** X9: with an empty passkey, [_fitted_passkey] returns the empty string on the
    empty text and divides by zero on every other text. *)
Theorem fitted_passkey_empty self text :
  passkey self = [] →
  _fitted_passkey self text =
    match text with
    | [] => Ok []
    | _ :: _ => Raise ZeroDivisionError
    end.
Proof.
  intros Hnil. unfold _fitted_passkey. rewrite Hnil. destruct text as [|x text].
  - reflexivity.
  - rewrite bool_decide_eq_false_2 by (simpl; lia). reflexivity.
Qed.

Lemma fitted_lookup_mod self text fitted i :
  passkey self ≠ [] → _fitted_passkey self text = Ok fitted → i < length text →
  fitted !! i = passkey self !! (i mod length (passkey self)).
Proof.
  intros Hne Hfit Hi. rewrite (fitted_passkey_closed self text Hne) in Hfit.
  injection Hfit as <-.
  assert (length (passkey self) ≠ 0) as Hk
    by (destruct (passkey self); [congruence | simpl; lia]).
  destruct (bool_decide (length text ≤ length (passkey self))) eqn:Hle.
  - apply bool_decide_eq_true in Hle.
    rewrite lookup_take_lt, Nat.mod_small by lia. reflexivity.
  - apply bool_decide_eq_false in Hle.
    pose proof (Nat.div_mod_eq (length text) (length (passkey self))) as Hdm.
    pose proof (Nat.mod_upper_bound (length text) (length (passkey self)) Hk) as Hm.
    set (d := length text / length (passkey self)) in *.
    set (m := length text mod length (passkey self)) in *.
    destruct (decide (i < d * length (passkey self))) as [Hlt|Hge].
    + rewrite lookup_app_l by (rewrite length_concat_replicate; exact Hlt).
      apply lookup_concat_replicate. exact Hlt.
    + rewrite lookup_app_r by (rewrite length_concat_replicate; lia).
      rewrite length_concat_replicate, lookup_take_lt by lia.
      f_equal. apply (Nat.mod_unique _ _ d); lia.
Qed.

(** X8: the fitted passkey repeats the passkey: its symbol at position [i] is
    the symbol of the passkey at position [i mod k]. *)
Theorem fitted_passkey_lookup self text fitted i :
  passkey self ≠ [] → _fitted_passkey self text = Ok fitted → i < length text →
  fitted !! i = passkey self !! (i mod length (passkey self)).
Proof. apply fitted_lookup_mod. Qed.

(** X10: on the empty text, an engine whose passkey is not empty encrypts and
    decrypts to the empty text. *)
Theorem encrypt_decrypt_nil self :
  passkey self ≠ [] → encrypt self [] = Ok [] ∧ decrypt self [] = Ok [].
Proof.
  intros Hne.
  assert (_validate_text self [] = Ok ()) as Hval.
  { apply validate_text_Ok. split.
    - intros (before & after & Heq). symmetry in Heq.
      apply app_eq_nil in Heq as [_ Heq]. apply app_eq_nil in Heq as [Heq _].
      exact (Hne Heq).
    - intros c Hin. apply elem_of_nil in Hin. destruct Hin. }
  assert (_fitted_passkey self [] = Ok []) as Hfit.
  { unfold _fitted_passkey. rewrite bool_decide_eq_true_2 by (simpl; lia). reflexivity. }
  rewrite (encrypt_unfold _ _ _ Hval Hfit), (decrypt_unfold _ _ _ Hval Hfit).
  split; reflexivity.
Qed.

End FittedMore.

(** ** The table, with and without repeated symbols *)

Section TableMore.
Context {A : Type} `{Countable A}.
Implicit Types (self : Vigenere A) (pk cs text row : list A) (a b c k x y : A).
Implicit Types (i j p q n : nat) (d : list (A * list A)).

Lemma dict_setitem_keys d k row :
  (dict_setitem k row d).*1 = if decide (k ∈ d.*1) then d.*1 else d.*1 ++ [k].
Proof.
  induction d as [|[k' v'] d IH]; cbn [dict_setitem].
  - rewrite decide_False by apply not_elem_of_nil. reflexivity.
  - destruct (decide (k' = k)) as [->|Hne]; rewrite !fmap_cons; cbn [fst].
    + rewrite decide_True by (apply elem_of_cons; left; reflexivity). reflexivity.
    + rewrite IH. destruct (decide (k ∈ d.*1)) as [Hin|Hnin].
      * rewrite decide_True by (apply elem_of_cons; right; exact Hin). reflexivity.
      * rewrite decide_False; [reflexivity|].
        intros Hin. apply elem_of_cons in Hin as [->|Hin]; [apply Hne; reflexivity | exact (Hnin Hin)].
Qed.

Lemma dict_getitem_missing d c : c ∉ d.*1 → dict_getitem d c = Raise (KeyError c).
Proof.
  induction d as [|[k' v'] d IH]; simpl; intros Hnin; [reflexivity|].
  apply not_elem_of_cons in Hnin as [Hne Hnin].
  rewrite decide_False by (intros ->; apply Hne; reflexivity). exact (IH Hnin).
Qed.

Lemma comprehension_keys_elem f (l : list A) c :
  c ∈ (comprehension f l).*1 ↔ c ∈ l.
Proof.
  induction l as [|z l IH] using rev_ind.
  - split; intros Hin; apply elem_of_nil in Hin; destruct Hin.
  - rewrite comprehension_snoc, dict_setitem_keys, elem_of_app, list_elem_of_singleton.
    destruct (decide (z ∈ (comprehension f l).*1)) as [Hin|Hnin].
    + rewrite IH. split; [intros Hc; left; exact Hc|].
      intros [Hc| ->]; [exact Hc | apply IH; exact Hin].
    + rewrite elem_of_app, list_elem_of_singleton, IH. reflexivity.
Qed.

Lemma comprehension_keys_NoDup f (l : list A) : NoDup (comprehension f l).*1.
Proof.
  induction l as [|z l IH] using rev_ind; [apply NoDup_nil_2|].
  rewrite comprehension_snoc, dict_setitem_keys.
  destruct (decide (z ∈ (comprehension f l).*1)) as [Hin|Hnin]; [exact IH|].
  apply NoDup_app. split; [exact IH|]. split; [|apply NoDup_singleton].
  intros c Hc Hz. apply list_elem_of_singleton in Hz. subst c. exact (Hnin Hc).
Qed.

(** A repeated symbol is bound to the value of its last position. *)
Lemma comprehension_getitem_last f (l : list A) i c :
  l !! i = Some c → (∀ j, i < j → l !! j ≠ Some c) →
  dict_getitem (comprehension f l) c = Ok (f i).
Proof.
  revert i. induction l as [|z l IH] using rev_ind; intros i Hi Hlast; [discriminate|].
  rewrite comprehension_snoc. destruct (decide (z = c)) as [->|Hne].
  - destruct (decide (i = length l)) as [->|Hi'].
    + apply dict_getitem_setitem_eq.
    + exfalso. apply (Hlast (length l)).
      * pose proof (lookup_lt_Some _ _ _ Hi) as Hlt. rewrite length_app in Hlt. simpl in Hlt. lia.
      * rewrite lookup_app_r, Nat.sub_diag by lia. reflexivity.
  - rewrite dict_getitem_setitem_ne by exact Hne.
    assert (l !! i = Some c) as Hi'.
    { apply lookup_app_Some in Hi as [Hi|[Hge Hi]]; [exact Hi|].
      apply list_lookup_singleton_Some in Hi as [_ ->]. destruct (Hne eq_refl). }
    apply IH; [exact Hi'|]. intros j Hj Hjc. apply (Hlast j Hj).
    apply lookup_app_l_Some. exact Hjc.
Qed.

(** X11: for any character set, repeated symbols or not: [rows] binds a symbol
    to the rotation that starts at its last position, has no entry for a
    symbol that is not in the character set, and has one entry for each
    distinct symbol. *)
Theorem rows_repeated pk cs self :
  __init__ pk cs = Ok self →
  (∀ i c, cs !! i = Some c → (∀ j, i < j → cs !! j ≠ Some c) →
     dict_getitem (rows self) c = Ok (drop i cs ++ take i cs)) ∧
  (∀ c, c ∉ cs → dict_getitem (rows self) c = Raise (KeyError c)) ∧
  NoDup (rows self).*1 ∧
  (rows self).*1 ≡ₚ remove_dups cs.
Proof.
  intros Hinit. apply init_Ok in Hinit as [_ ->]. simpl. unfold build_rows.
  split; [|split; [|split]].
  - intros i c Hi Hlast. exact (comprehension_getitem_last (rotation cs) cs i c Hi Hlast).
  - intros c Hnin. apply dict_getitem_missing. rewrite comprehension_keys_elem. exact Hnin.
  - apply comprehension_keys_NoDup.
  - apply NoDup_Permutation.
    + apply comprehension_keys_NoDup.
    + apply NoDup_remove_dups.
    + intros c. rewrite comprehension_keys_elem, elem_of_remove_dups. reflexivity.
Qed.

(** X12: without repeated symbols the table is symmetric: the row of [a] at the
    column of [b] holds what the row of [b] holds at the column of [a]. *)
Theorem rows_symmetric pk cs self p q a b :
  NoDup cs → __init__ pk cs = Ok self →
  cs !! p = Some a → cs !! q = Some b →
  ∃ row_a row_b,
    dict_getitem (rows self) a = Ok row_a ∧ dict_getitem (rows self) b = Ok row_b ∧
    row_a !! q = row_b !! p.
Proof.
  intros Hnd Hinit Hp Hq. apply init_Ok in Hinit as [_ ->]. simpl. unfold build_rows.
  exists (rotation cs p), (rotation cs q).
  pose proof (lookup_lt_Some _ _ _ Hp). pose proof (lookup_lt_Some _ _ _ Hq).
  split; [|split].
  - apply comprehension_NoDup_getitem; assumption.
  - apply comprehension_NoDup_getitem; assumption.
  - rewrite !lookup_rotation by assumption. rewrite (Nat.add_comm q p). reflexivity.
Qed.

(** X13: without repeated symbols, a pass of [encrypt] leaves the text symbol as
    it is exactly when the passkey symbol is the first of the character
    set. *)
Theorem encrypt_at_fixed pk cs self text i x q k :
  NoDup cs → __init__ pk cs = Ok self →
  text !! i = Some x → x ∈ cs → cs !! q = Some k →
  encrypt_at self text i k = Ok x ↔ q = 0.
Proof.
  intros Hnd Hinit Hi Hx Hq. apply init_Ok in Hinit as [_ ->].
  apply list_elem_of_lookup_1 in Hx as [p Hp].
  pose proof (lookup_lt_Some _ _ _ Hp) as Hpn. pose proof (lookup_lt_Some _ _ _ Hq) as Hqn.
  destruct (lookup_lt_is_Some_2 cs ((p + q) mod length cs)) as [y Hy].
  { apply Nat.mod_upper_bound. lia. }
  rewrite (encrypt_at_NoDup pk cs text i p q x k y Hnd Hp Hq Hy Hi). split.
  - intros [= ->]. pose proof (NoDup_lookup _ _ _ _ Hnd Hy Hp) as Hmod.
    destruct (decide (p + q < length cs)) as [Hlt|Hge].
    + rewrite Nat.mod_small in Hmod by exact Hlt. lia.
    + assert ((p + q) mod length cs = p + q - length cs) as Hsub
        by (symmetry; apply (Nat.mod_unique _ _ 1); lia).
      lia.
  - intros ->. rewrite Nat.add_0_r, Nat.mod_small in Hy by exact Hpn.
    rewrite Hp in Hy. injection Hy as ->. reflexivity.
Qed.

End TableMore.

(** ** What the loops return *)

Section RunsMore.
Context {A : Type} `{Countable A}.
Implicit Types (self : Vigenere A) (pk cs text ct pt fitted row : list A) (c k x y : A).
Implicit Types (i j p q n : nat) (d : list (A * list A)).

Lemma encrypt_loop_inv self text items (acc out : list A) :
  encrypt_loop self text items acc = Ok out →
  ∃ ys, out = acc ++ ys ∧
        Forall2 (λ it y, encrypt_at self text it.1 it.2 = Ok y) items ys.
Proof.
  revert acc. induction items as [|[i k] items IH]; intros acc; simpl.
  - intros [= <-]. exists []. split; [rewrite app_nil_r; reflexivity | constructor].
  - destruct (encrypt_at self text i k) as [y|e] eqn:Hpass; simpl; [|discriminate].
    intros Hloop. apply IH in Hloop as (ys & -> & Hall).
    exists (y :: ys). split; [rewrite <- app_assoc; reflexivity|].
    constructor; assumption.
Qed.

Lemma decrypt_loop_inv self text items (acc out : list A) :
  decrypt_loop self text items acc = Ok out →
  ∃ ys, out = acc ++ ys ∧
        Forall2 (λ it y, decrypt_at self text it.1 it.2 = Ok y) items ys.
Proof.
  revert acc. induction items as [|[i k] items IH]; intros acc; simpl.
  - intros [= <-]. exists []. split; [rewrite app_nil_r; reflexivity | constructor].
  - destruct (decrypt_at self text i k) as [y|e] eqn:Hpass; simpl; [|discriminate].
    intros Hloop. apply IH in Hloop as (ys & -> & Hall).
    exists (y :: ys). split; [rewrite <- app_assoc; reflexivity|].
    constructor; assumption.
Qed.

(** A result of [encrypt] went through the validation, the fitting and the
    passes. *)
Lemma encrypt_inv self text ct :
  encrypt self text = Ok ct →
  _validate_text self text = Ok () ∧
  ∃ fitted, _fitted_passkey self text = Ok fitted ∧ length fitted = length text ∧
    Forall2 (λ it y, encrypt_at self text it.1 it.2 = Ok y) (enumerate fitted) ct.
Proof.
  unfold encrypt. destruct (_validate_text self text) as [[]|e] eqn:Hval; simpl; [|discriminate].
  destruct (_fitted_passkey self text) as [fitted|e] eqn:Hfit; simpl; [|discriminate].
  intros Hloop. apply encrypt_loop_inv in Hloop as (ys & -> & Hall).
  split; [reflexivity|]. exists fitted. split; [reflexivity|].
  split; [eapply fitted_passkey_length, Hfit | exact Hall].
Qed.

Lemma decrypt_inv self text pt :
  decrypt self text = Ok pt →
  _validate_text self text = Ok () ∧
  ∃ fitted, _fitted_passkey self text = Ok fitted ∧ length fitted = length text ∧
    Forall2 (λ it y, decrypt_at self text it.1 it.2 = Ok y) (enumerate fitted) pt.
Proof.
  unfold decrypt. destruct (_validate_text self text) as [[]|e] eqn:Hval; simpl; [|discriminate].
  destruct (_fitted_passkey self text) as [fitted|e] eqn:Hfit; simpl; [|discriminate].
  intros Hloop. apply decrypt_loop_inv in Hloop as (ys & -> & Hall).
  split; [reflexivity|]. exists fitted. split; [reflexivity|].
  split; [eapply fitted_passkey_length, Hfit | exact Hall].
Qed.

Lemma dict_getitem_elem d c row : dict_getitem d c = Ok row → (c, row) ∈ d.
Proof.
  induction d as [|[k' v'] d IH]; simpl; [discriminate|].
  destruct (decide (k' = c)) as [->|Hne].
  - intros [= ->]. apply elem_of_cons. left. reflexivity.
  - intros Hget. apply elem_of_cons. right. exact (IH Hget).
Qed.

(** What a pass returns is a symbol of the character set. *)
Lemma encrypt_at_in_charset pk cs text i k y :
  encrypt_at (engine pk cs) text i k = Ok y → y ∈ cs.
Proof.
  unfold encrypt_at, getitem. simpl.
  destruct (str_index cs k) as [col|e]; simpl; [|discriminate].
  destruct (text !! i) as [x|]; simpl; [|discriminate].
  destruct (dict_getitem (build_rows cs) x) as [row|e] eqn:Hrow; simpl; [|discriminate].
  apply dict_getitem_elem, elem_of_comprehension in Hrow as (j & _ & ->).
  destruct (rotation cs j !! col) as [y'|] eqn:Hy; [|discriminate].
  intros [= <-]. rewrite <- (rotation_Permutation cs j).
  eapply list_elem_of_lookup_2, Hy.
Qed.

Lemma decrypt_at_in_charset pk cs text i k x :
  decrypt_at (engine pk cs) text i k = Ok x → x ∈ cs.
Proof.
  unfold decrypt_at, getitem. simpl.
  destruct (dict_getitem (build_rows cs) k) as [row|e]; simpl; [|discriminate].
  destruct (text !! i) as [y|]; simpl; [|discriminate].
  destruct (str_index row y) as [row_pos|e]; simpl; [|discriminate].
  destruct (cs !! row_pos) as [x'|] eqn:Hx; [|discriminate].
  intros [= <-]. eapply list_elem_of_lookup_2, Hx.
Qed.

(** One pass of [decrypt] on an engine that [__init__] returned, repeated
    symbols or not: the row of the passkey symbol is a rotation of the
    character set, so the text symbol is found in it. *)
Lemma decrypt_at_engine pk cs text i k y :
  k ∈ cs → text !! i = Some y → y ∈ cs →
  ∃ x, decrypt_at (engine pk cs) text i k = Ok x.
Proof.
  intros Hk Hi Hy.
  destruct (comprehension_getitem (rotation cs) cs k Hk) as (j & Hj & Hrow).
  destruct (str_index_elem (rotation cs j) y) as (r & Hr & Hry).
  { rewrite rotation_Permutation. exact Hy. }
  destruct (lookup_lt_is_Some_2 cs r) as [x Hx].
  { rewrite <- (length_rotation cs j). eapply lookup_lt_Some, Hry. }
  exists x. unfold decrypt_at, getitem. simpl. unfold build_rows.
  rewrite Hrow. simpl. rewrite Hi. simpl. rewrite Hr. simpl. rewrite Hx. reflexivity.
Qed.

Lemma decrypt_engine pk cs text :
  (∀ c, c ∈ pk → c ∈ cs) → _validate_text (engine pk cs) text = Ok () →
  ∃ fitted pt,
    _fitted_passkey (engine pk cs) text = Ok fitted ∧ length fitted = length text ∧
    decrypt (engine pk cs) text = Ok pt ∧
    Forall2 (λ it y, decrypt_at (engine pk cs) text it.1 it.2 = Ok y) (enumerate fitted) pt.
Proof.
  intros Hpk Hval. destruct (validate_text_fitted _ _ Hval) as (fitted & Hfit & Hlen).
  pose proof Hval as Hval'. apply validate_text_Ok in Hval' as [_ Htext]. simpl in Htext.
  destruct (passes_total (λ it, decrypt_at (engine pk cs) text it.1 it.2) (enumerate fitted))
    as [pt Hpt].
  { apply Forall_lookup. intros i [j k] Hik. apply lookup_enumerate in Hik as [-> Hk]. simpl.
    destruct (lookup_lt_is_Some_2 text i) as [y Hy].
    { rewrite <- Hlen. eapply lookup_lt_Some, Hk. }
    apply (decrypt_at_engine pk cs text i k y).
    - apply Hpk. eapply (fitted_passkey_elem (engine pk cs)); [exact Hfit|].
      eapply list_elem_of_lookup_2, Hk.
    - exact Hy.
    - apply Htext. eapply list_elem_of_lookup_2, Hy. }
  exists fitted, pt. repeat (split; [assumption|]). split; [|exact Hpt].
  rewrite (decrypt_unfold _ _ _ Hval Hfit). apply (decrypt_loop_Forall2 _ _ _ pt []). exact Hpt.
Qed.

(** Every symbol a run of passes returned is in the character set. *)
Lemma passes_in_charset (step : nat * A → result A A) cs (items : list (nat * A)) (ys : list A) :
  (∀ it y, step it = Ok y → y ∈ cs) →
  Forall2 (λ it y, step it = Ok y) items ys → ∀ y, y ∈ ys → y ∈ cs.
Proof.
  intros Hstep Hall y Hy. apply list_elem_of_lookup_1 in Hy as [i Hy].
  destruct (Forall2_lookup_r _ _ _ _ _ Hall Hy) as (it & _ & Hit).
  exact (Hstep it y Hit).
Qed.

End RunsMore.

(** ** Whole runs: results, errors, inverses *)

Section Whole.
Context {A : Type} `{Countable A}.
Implicit Types (self : Vigenere A) (pk cs text ct pt fitted row : list A) (c k x y : A).
Implicit Types (i j p q n : nat) (e : exn A).

(** Without repeated symbols, a pass of [decrypt] subtracts the position of
    the passkey symbol modulo the size of the character set. *)
Lemma decrypt_at_sub pk cs ct i p q y k :
  NoDup cs → cs !! p = Some y → cs !! q = Some k → ct !! i = Some y →
  ∃ x, cs !! ((p + (length cs - q)) mod length cs) = Some x ∧
       decrypt_at (engine pk cs) ct i k = Ok x ∧
       (∀ text, text !! i = Some x → encrypt_at (engine pk cs) text i k = Ok y).
Proof.
  intros Hnd Hp Hq Hi.
  pose proof (lookup_lt_Some _ _ _ Hp) as Hpn. pose proof (lookup_lt_Some _ _ _ Hq) as Hqn.
  destruct (lookup_lt_is_Some_2 cs ((p + (length cs - q)) mod length cs)) as [x Hx].
  { apply Nat.mod_upper_bound. lia. }
  assert (cs !! (((p + (length cs - q)) mod length cs + q) mod length cs) = Some y) as Hy.
  { rewrite Nat.Div0.add_mod_idemp_l.
    replace (p + (length cs - q) + q) with (p + 1 * length cs) by lia.
    rewrite Nat.Div0.mod_add, Nat.mod_small by lia. exact Hp. }
  exists x. split; [exact Hx|]. split.
  - exact (decrypt_at_NoDup pk cs ct i _ q x k y Hnd Hx Hq Hy Hi).
  - intros text Ht. exact (encrypt_at_NoDup pk cs text i _ q x k y Hnd Hx Hq Hy Ht).
Qed.

(** The symbols of the fitted passkey are symbols of the character set. *)
Lemma fitted_in_charset pk cs text fitted i k :
  (∀ c, c ∈ pk → c ∈ cs) → _fitted_passkey (engine pk cs) text = Ok fitted →
  fitted !! i = Some k → k ∈ cs.
Proof.
  intros Hpk Hfit Hk. apply Hpk.
  eapply (fitted_passkey_elem (engine pk cs)); [exact Hfit|].
  eapply list_elem_of_lookup_2, Hk.
Qed.

(** X5: on an engine that [__init__] returned, repeated symbols or not,
    [decrypt] returns on every text that passes validation. *)
Theorem decrypt_returns pk cs self text :
  __init__ pk cs = Ok self → _validate_text self text = Ok () →
  ∃ pt, decrypt self text = Ok pt.
Proof.
  intros Hinit Hval. apply init_Ok in Hinit as [Hpk ->].
  destruct (decrypt_engine pk cs text Hpk Hval) as (fitted & pt & _ & _ & Hdec & _).
  exists pt. exact Hdec.
Qed.

(** X6: what [encrypt] or [decrypt] returns has the length of the text and
    only symbols of the character set. *)
Theorem results_in_charset pk cs self text out :
  __init__ pk cs = Ok self →
  encrypt self text = Ok out ∨ decrypt self text = Ok out →
  length out = length text ∧ ∀ y, y ∈ out → y ∈ cs.
Proof.
  intros Hinit Hrun. apply init_Ok in Hinit as [_ ->].
  destruct Hrun as [Hrun|Hrun].
  - apply encrypt_inv in Hrun as (_ & fitted & _ & Hlen & Hall). split.
    + rewrite <- (Forall2_length _ _ _ Hall), length_enumerate. exact Hlen.
    + apply (passes_in_charset _ cs _ _ (λ it y, encrypt_at_in_charset pk cs text it.1 it.2 y) Hall).
  - apply decrypt_inv in Hrun as (_ & fitted & _ & Hlen & Hall). split.
    + rewrite <- (Forall2_length _ _ _ Hall), length_enumerate. exact Hlen.
    + apply (passes_in_charset _ cs _ _ (λ it y, decrypt_at_in_charset pk cs text it.1 it.2 y) Hall).
Qed.

(** X7: on an engine that [__init__] returned, [encrypt] and [decrypt] raise
    nothing but the two errors of the validation: no key, index or division
    error comes out of the loops. *)
Theorem raises_validation_only pk cs self text e :
  __init__ pk cs = Ok self →
  encrypt self text = Raise e ∨ decrypt self text = Raise e →
  _validate_text self text = Raise e ∧
  (e = ValueError TextContainsPasskey ∨
   e = ValueError (TextNotInCharset (list_to_set text ∖ list_to_set cs))).
Proof.
  intros Hinit Hrun.
  assert (_validate_text self text = Raise e) as Hval.
  { destruct (_validate_text self text) as [[]|e'] eqn:Hval.
    - exfalso. pose proof Hinit as Hinit'. apply init_Ok in Hinit' as [Hpk ->].
      destruct (encrypt_engine pk cs text Hpk Hval) as (_ & ct & _ & _ & Henc & _).
      destruct (decrypt_engine pk cs text Hpk Hval) as (_ & pt & _ & _ & Hdec & _).
      destruct Hrun as [Hrun|Hrun]; congruence.
    - unfold encrypt, decrypt in Hrun. rewrite Hval in Hrun. simpl in Hrun.
      destruct Hrun as [Hrun|Hrun]; congruence. }
  split; [exact Hval|].
  apply init_Ok in Hinit as [_ ->]. unfold _validate_text in Hval. simpl in Hval.
  destruct (str_in pk text); [left; congruence|].
  destruct (bool_decide (list_to_set text ⊆ list_to_set cs)); simpl in Hval; [discriminate|].
  right. congruence.
Qed.

(** X3: the round trip the other way: without repeated symbols, [decrypt]
    returns on every text that passes validation, and [encrypt] gives the
    text back from what it returned, unless that contains the passkey, in
    which case [encrypt] raises the error of the validation. *)
Theorem encrypt_decrypt pk cs self ct :
  NoDup cs → __init__ pk cs = Ok self → _validate_text self ct = Ok () →
  ∃ pt, decrypt self ct = Ok pt ∧
        (¬ substring pk pt → encrypt self pt = Ok ct) ∧
        (substring pk pt → encrypt self pt = Raise (ValueError TextContainsPasskey)).
Proof.
  intros Hnd Hinit Hval. apply init_Ok in Hinit as [Hpk ->].
  destruct (decrypt_engine pk cs ct Hpk Hval) as (fitted & pt & Hfit & Hlen & Hdec & Hpt).
  exists pt. split; [exact Hdec|]. split.
  - intros Hsub.
    assert (length pt = length ct) as Hlen'.
    { rewrite <- (Forall2_length _ _ _ Hpt), length_enumerate. exact Hlen. }
    assert (_validate_text (engine pk cs) pt = Ok ()) as Hval'.
    { apply validate_text_Ok. split; [exact Hsub|]. simpl.
      apply (passes_in_charset _ cs _ _ (λ it y, decrypt_at_in_charset pk cs ct it.1 it.2 y) Hpt). }
    assert (_fitted_passkey (engine pk cs) pt = Ok fitted) as Hfit'
      by (rewrite (fitted_passkey_same_length _ ct pt Hlen'); exact Hfit).
    rewrite (encrypt_unfold _ _ _ Hval' Hfit').
    apply (encrypt_loop_Forall2 _ _ _ ct []).
    apply Forall2_same_length_lookup_2; [rewrite length_enumerate; exact Hlen|].
    intros i [j k] y Hik Hy. pose proof Hik as Hik'.
    apply lookup_enumerate in Hik' as [-> Hk]. simpl.
    destruct (lookup_lt_is_Some_2 pt i) as [x Hx].
    { rewrite Hlen'. eapply lookup_lt_Some, Hy. }
    pose proof (Forall2_lookup_lr _ _ _ _ _ _ Hpt Hik Hx) as Hpass. simpl in Hpass.
    apply validate_text_Ok in Hval as [_ Hct]. simpl in Hct.
    destruct (list_elem_of_lookup_1 cs y) as [p Hp].
    { apply Hct. eapply list_elem_of_lookup_2, Hy. }
    destruct (list_elem_of_lookup_1 cs k) as [q Hq].
    { exact (fitted_in_charset pk cs ct fitted i k Hpk Hfit Hk). }
    destruct (decrypt_at_sub pk cs ct i p q y k Hnd Hp Hq Hy) as (x' & _ & Hdec' & Henc').
    rewrite Hdec' in Hpass. injection Hpass as ->. apply Henc'. exact Hx.
  - intros Hsub. unfold encrypt.
    rewrite (validate_text_contains (engine pk cs) pt Hsub). reflexivity.
Qed.

(** X4: without repeated symbols, [encrypt] is injective: two texts with the
    same ciphertext are the same text. *)
Theorem encrypt_injective pk cs self text1 text2 ct :
  NoDup cs → __init__ pk cs = Ok self →
  encrypt self text1 = Ok ct → encrypt self text2 = Ok ct → text1 = text2.
Proof.
  intros Hnd Hinit Henc1 Henc2. apply init_Ok in Hinit as [Hpk ->].
  apply encrypt_inv in Henc1 as (Hval1 & fitted1 & Hfit1 & Hlen1 & Hall1).
  apply encrypt_inv in Henc2 as (Hval2 & fitted2 & Hfit2 & Hlen2 & Hall2).
  assert (length text1 = length ct) as Hl1
    by (rewrite <- (Forall2_length _ _ _ Hall1), length_enumerate; lia).
  assert (length text2 = length ct) as Hl2
    by (rewrite <- (Forall2_length _ _ _ Hall2), length_enumerate; lia).
  assert (fitted2 = fitted1) as ->.
  { rewrite (fitted_passkey_same_length _ text1 text2) in Hfit2 by lia. congruence. }
  apply validate_text_Ok in Hval1 as [_ Hin1]. apply validate_text_Ok in Hval2 as [_ Hin2].
  simpl in Hin1, Hin2.
  apply list_eq_same_length with (length ct); [lia | lia|].
  intros i x1 x2 Hi Hx1 Hx2.
  destruct (lookup_lt_is_Some_2 fitted1 i) as [k Hk]; [lia|].
  destruct (lookup_lt_is_Some_2 ct i) as [y Hy]; [lia|].
  assert (enumerate fitted1 !! i = Some (i, k)) as Hik
    by (apply lookup_enumerate; split; [reflexivity | exact Hk]).
  pose proof (Forall2_lookup_lr _ _ _ _ _ _ Hall1 Hik Hy) as Hpass1.
  pose proof (Forall2_lookup_lr _ _ _ _ _ _ Hall2 Hik Hy) as Hpass2.
  simpl in Hpass1, Hpass2.
  assert (k ∈ cs) as Hkcs by exact (fitted_in_charset pk cs text1 fitted1 i k Hpk Hfit1 Hk).
  destruct (positions_NoDup cs x1 k) as (p1 & q1 & y1 & Hp1 & Hq1 & Hy1);
    [apply Hin1; eapply list_elem_of_lookup_2, Hx1 | exact Hkcs |].
  destruct (positions_NoDup cs x2 k) as (p2 & q2 & y2 & Hp2 & Hq2 & Hy2);
    [apply Hin2; eapply list_elem_of_lookup_2, Hx2 | exact Hkcs |].
  rewrite (encrypt_at_NoDup pk cs text1 i p1 q1 x1 k y1 Hnd Hp1 Hq1 Hy1 Hx1) in Hpass1.
  rewrite (encrypt_at_NoDup pk cs text2 i p2 q2 x2 k y2 Hnd Hp2 Hq2 Hy2 Hx2) in Hpass2.
  injection Hpass1 as ->. injection Hpass2 as ->.
  pose proof (decrypt_at_NoDup pk cs ct i p1 q1 x1 k y Hnd Hp1 Hq1 Hy1 Hy) as Hd1.
  pose proof (decrypt_at_NoDup pk cs ct i p2 q2 x2 k y Hnd Hp2 Hq2 Hy2 Hy) as Hd2.
  congruence.
Qed.

End Whole.

(** ** The cipher as arithmetic on positions *)

Section Formulas.
Context {A : Type} `{Countable A}.
Implicit Types (self : Vigenere A) (pk cs text ct pt fitted row sep : list A) (c k x y : A).
Implicit Types (i j p q n : nat).

(** X1: without repeated symbols, [encrypt] adds positions: the symbol at [i]
    of the ciphertext is the symbol of the character set at the position of
    [text[i]] plus the position of [passkey[i mod k]], modulo the size of
    the character set. *)
Theorem encrypt_formula pk cs self text :
  NoDup cs → __init__ pk cs = Ok self → _validate_text self text = Ok () →
  ∃ ct, encrypt self text = Ok ct ∧
    ∀ i x, text !! i = Some x →
      ∃ k p q y,
        pk !! (i mod length pk) = Some k ∧
        cs !! p = Some x ∧ cs !! q = Some k ∧
        cs !! ((p + q) mod length cs) = Some y ∧ ct !! i = Some y.
Proof.
  intros Hnd Hinit Hval. apply init_Ok in Hinit as [Hpk ->].
  destruct (encrypt_engine pk cs text Hpk Hval) as (fitted & ct & Hfit & Hlen & Henc & Hct).
  exists ct. split; [exact Henc|]. intros i x Hx.
  pose proof (lookup_lt_Some _ _ _ Hx) as Hi.
  destruct (lookup_lt_is_Some_2 fitted i) as [k Hk]; [lia|].
  assert (length ct = length text) as Hlen'
    by (rewrite <- (Forall2_length _ _ _ Hct), length_enumerate; exact Hlen).
  destruct (lookup_lt_is_Some_2 ct i) as [y Hy]; [lia|].
  assert (enumerate fitted !! i = Some (i, k)) as Hik
    by (apply lookup_enumerate; split; [reflexivity | exact Hk]).
  pose proof (Forall2_lookup_lr _ _ _ _ _ _ Hct Hik Hy) as Hpass. simpl in Hpass.
  pose proof Hval as Hval'. apply validate_text_Ok in Hval' as [_ Htext]. simpl in Htext.
  destruct (positions_NoDup cs x k) as (p & q & y' & Hp & Hq & Hy').
  { apply Htext. eapply list_elem_of_lookup_2, Hx. }
  { exact (fitted_in_charset pk cs text fitted i k Hpk Hfit Hk). }
  rewrite (encrypt_at_NoDup pk cs text i p q x k y' Hnd Hp Hq Hy' Hx) in Hpass.
  injection Hpass as ->.
  exists k, p, q, y. split; [|repeat split; assumption].
  rewrite <- Hk.
  symmetry. exact (fitted_lookup_mod (engine pk cs) text fitted i
                     (validate_text_passkey _ _ Hval) Hfit Hi).
Qed.

(** X2: without repeated symbols, [decrypt] subtracts positions: the symbol at
    [i] of what it returns is the symbol of the character set at the
    position of [text[i]] minus the position of [passkey[i mod k]], modulo
    the size of the character set. *)
Theorem decrypt_formula pk cs self text :
  NoDup cs → __init__ pk cs = Ok self → _validate_text self text = Ok () →
  ∃ pt, decrypt self text = Ok pt ∧
    ∀ i y, text !! i = Some y →
      ∃ k p q x,
        pk !! (i mod length pk) = Some k ∧
        cs !! p = Some y ∧ cs !! q = Some k ∧
        cs !! ((p + (length cs - q)) mod length cs) = Some x ∧ pt !! i = Some x.
Proof.
  intros Hnd Hinit Hval. apply init_Ok in Hinit as [Hpk ->].
  destruct (decrypt_engine pk cs text Hpk Hval) as (fitted & pt & Hfit & Hlen & Hdec & Hpt).
  exists pt. split; [exact Hdec|]. intros i y Hy.
  pose proof (lookup_lt_Some _ _ _ Hy) as Hi.
  destruct (lookup_lt_is_Some_2 fitted i) as [k Hk]; [lia|].
  assert (length pt = length text) as Hlen'
    by (rewrite <- (Forall2_length _ _ _ Hpt), length_enumerate; exact Hlen).
  destruct (lookup_lt_is_Some_2 pt i) as [x Hx]; [lia|].
  assert (enumerate fitted !! i = Some (i, k)) as Hik
    by (apply lookup_enumerate; split; [reflexivity | exact Hk]).
  pose proof (Forall2_lookup_lr _ _ _ _ _ _ Hpt Hik Hx) as Hpass. simpl in Hpass.
  pose proof Hval as Hval'. apply validate_text_Ok in Hval' as [_ Htext]. simpl in Htext.
  destruct (list_elem_of_lookup_1 cs y) as [p Hp].
  { apply Htext. eapply list_elem_of_lookup_2, Hy. }
  destruct (list_elem_of_lookup_1 cs k) as [q Hq].
  { exact (fitted_in_charset pk cs text fitted i k Hpk Hfit Hk). }
  destruct (decrypt_at_sub pk cs text i p q y k Hnd Hp Hq Hy) as (x' & Hx' & Hdec' & _).
  rewrite Hdec' in Hpass. injection Hpass as ->.
  exists k, p, q, x. split; [|repeat split; assumption].
  rewrite <- Hk.
  symmetry. exact (fitted_lookup_mod (engine pk cs) text fitted i
                     (validate_text_passkey _ _ Hval) Hfit Hi).
Qed.

Section ShowOrder.
Variable newline : A.
Variable repr : A → list A.

Lemma concat_map_imap {B C : Type} (f : C → list A) (g : nat → B → C) (l : list B) :
  concat (map f (imap g l)) = concat (imap (λ i b, f (g i b)) l).
Proof.
  revert g. induction l as [|b l IH]; intros g; simpl; [reflexivity|].
  rewrite IH. reflexivity.
Qed.

(** X14: without repeated symbols, [show] lists the rows in the order of the
    character set: line [i] has the quoted symbol at [i], then the quoted
    symbols of the character set rotated by [i], joined by the separator. *)
Theorem show_in_charset_order pk cs self sep :
  NoDup cs → __init__ pk cs = Ok self →
  ¬ substring sep cs → sep ≠ [newline] →
  show newline repr self sep =
    Ok (concat (imap (λ i c,
          repr c ++ sep ++ str_join sep (map repr (drop i cs ++ take i cs)) ++ [newline])
        cs)).
Proof.
  intros Hnd Hinit Hsub Hnl. apply init_Ok in Hinit as [_ ->].
  apply str_in_false in Hsub. unfold show. simpl.
  rewrite Hsub, bool_decide_eq_false_2 by exact Hnl. simpl. f_equal.
  rewrite foldl_append. simpl. unfold build_rows.
  rewrite (comprehension_NoDup _ _ Hnd), concat_map_imap.
  f_equal. apply imap_ext. intros i c _. unfold show_line, rotation. simpl.
  rewrite <- !app_assoc. reflexivity.
Qed.

End ShowOrder.

End Formulas.

(** * The further properties on concrete engines *)

Lemma fitted_passkey_empty_witness :
  passkey (engine [] (lit "ab")) = [] ∧
  _fitted_passkey (engine [] (lit "ab")) (lit "a") = Raise ZeroDivisionError ∧
  _fitted_passkey (engine [] (lit "ab")) [] = Ok [].
Proof.
  assert (passkey (engine [] (lit "ab")) = []) as Hnil by reflexivity.
  split; [exact Hnil|]. split.
  - exact (fitted_passkey_empty (engine [] (lit "ab")) (lit "a") Hnil).
  - exact (fitted_passkey_empty (engine [] (lit "ab")) [] Hnil).
Defined.

Lemma fitted_passkey_lookup_witness :
  passkey (engine (lit "abc") CHARSET) ≠ [] ∧
  _fitted_passkey (engine (lit "abc") CHARSET) (lit "1234") = Ok (lit "abca") ∧
  3 < length (lit "1234") ∧
  lit "abca" !! 3 = lit "abc" !! (3 mod 3).
Proof.
  assert (passkey (engine (lit "abc") CHARSET) ≠ []) as Hne by (simpl; discriminate).
  assert (_fitted_passkey (engine (lit "abc") CHARSET) (lit "1234") = Ok (lit "abca"))
    as Hfit by by_computation.
  assert (3 < length (lit "1234")) as Hi by (simpl; lia).
  repeat (split; [assumption|]).
  exact (fitted_passkey_lookup _ _ _ 3 Hne Hfit Hi).
Defined.

Lemma encrypt_decrypt_nil_witness :
  passkey (engine (lit "b") (lit "ab")) ≠ [] ∧
  encrypt (engine (lit "b") (lit "ab")) [] = Ok [] ∧
  decrypt (engine (lit "b") (lit "ab")) [] = Ok [].
Proof.
  assert (passkey (engine (lit "b") (lit "ab")) ≠ []) as Hne by (simpl; discriminate).
  split; [exact Hne|]. exact (encrypt_decrypt_nil _ Hne).
Defined.

(** Over ["abca"] the symbol ["a"] is bound to the rotation that starts at
    its second occurrence, and the table has three rows. *)
Lemma rows_repeated_witness :
  __init__ (lit "b") (lit "abca") = Ok (engine (lit "b") (lit "abca")) ∧
  dict_getitem (rows (engine (lit "b") (lit "abca"))) "a"%char = Ok (lit "aabc") ∧
  dict_getitem (rows (engine (lit "b") (lit "abca"))) "z"%char = Raise (KeyError "z"%char) ∧
  length (rows (engine (lit "b") (lit "abca"))) = 3.
Proof.
  assert (__init__ (lit "b") (lit "abca") = Ok (engine (lit "b") (lit "abca")))
    as Hinit by by_computation.
  split; [exact Hinit|].
  destruct (rows_repeated _ _ _ Hinit) as (Hlast & Hmissing & _ & Hkeys).
  split; [|split].
  - apply (Hlast 3); [reflexivity|].
    intros j Hj. rewrite lookup_ge_None_2 by (simpl; lia). discriminate.
  - apply Hmissing. decide_by_computation.
  - rewrite <- (length_fmap fst), Hkeys. reflexivity.
Defined.

Lemma rows_symmetric_witness :
  NoDup (lit "abcd") ∧
  __init__ (lit "c") (lit "abcd") = Ok (engine (lit "c") (lit "abcd")) ∧
  lit "abcd" !! 1 = Some "b"%char ∧ lit "abcd" !! 3 = Some "d"%char ∧
  ∃ row_b row_d,
    dict_getitem (rows (engine (lit "c") (lit "abcd"))) "b"%char = Ok row_b ∧
    dict_getitem (rows (engine (lit "c") (lit "abcd"))) "d"%char = Ok row_d ∧
    row_b !! 3 = row_d !! 1.
Proof.
  assert (NoDup (lit "abcd")) as Hnd by decide_by_computation.
  assert (__init__ (lit "c") (lit "abcd") = Ok (engine (lit "c") (lit "abcd")))
    as Hinit by by_computation.
  repeat (split; [first [assumption | reflexivity]|]).
  apply (rows_symmetric (lit "c") (lit "abcd") _ 1 3 _ _ Hnd Hinit); reflexivity.
Defined.

Lemma encrypt_at_fixed_witness :
  NoDup (lit "abcd") ∧
  __init__ (lit "a") (lit "abcd") = Ok (engine (lit "a") (lit "abcd")) ∧
  lit "dc" !! 0 = Some "d"%char ∧ "d"%char ∈ lit "abcd" ∧
  lit "abcd" !! 0 = Some "a"%char ∧
  encrypt_at (engine (lit "a") (lit "abcd")) (lit "dc") 0 "a"%char = Ok "d"%char.
Proof.
  assert (NoDup (lit "abcd")) as Hnd by decide_by_computation.
  assert (__init__ (lit "a") (lit "abcd") = Ok (engine (lit "a") (lit "abcd")))
    as Hinit by by_computation.
  assert ("d"%char ∈ lit "abcd") as Hd by decide_by_computation.
  repeat (split; [first [assumption | reflexivity]|]).
  apply (encrypt_at_fixed (lit "a") (lit "abcd") _ (lit "dc") 0 "d"%char 0 "a"%char
           Hnd Hinit eq_refl Hd eq_refl).
  reflexivity.
Defined.

Lemma decrypt_returns_witness :
  __init__ (lit "p@sSw0rd") CHARSET = Ok (engine (lit "p@sSw0rd") CHARSET) ∧
  _validate_text (engine (lit "p@sSw0rd") CHARSET) (lit "w^D3KZNrG v") = Ok () ∧
  ∃ pt, decrypt (engine (lit "p@sSw0rd") CHARSET) (lit "w^D3KZNrG v") = Ok pt.
Proof.
  assert (__init__ (lit "p@sSw0rd") CHARSET = Ok (engine (lit "p@sSw0rd") CHARSET))
    as Hinit by by_computation.
  assert (_validate_text (engine (lit "p@sSw0rd") CHARSET) (lit "w^D3KZNrG v") = Ok ())
    as Hval by by_computation.
  repeat (split; [assumption|]).
  exact (decrypt_returns _ _ _ _ Hinit Hval).
Defined.

Lemma results_in_charset_witness :
  __init__ (lit "p@sSw0rd") CHARSET = Ok (engine (lit "p@sSw0rd") CHARSET) ∧
  encrypt (engine (lit "p@sSw0rd") CHARSET) (lit "hello world") = Ok (lit "w^D3KZNrG v") ∧
  length (lit "w^D3KZNrG v") = length (lit "hello world") ∧
  ∀ y, y ∈ lit "w^D3KZNrG v" → y ∈ CHARSET.
Proof.
  assert (__init__ (lit "p@sSw0rd") CHARSET = Ok (engine (lit "p@sSw0rd") CHARSET))
    as Hinit by by_computation.
  assert (encrypt (engine (lit "p@sSw0rd") CHARSET) (lit "hello world")
          = Ok (lit "w^D3KZNrG v")) as Henc by by_computation.
  repeat (split; [assumption|]).
  exact (results_in_charset _ _ _ _ _ Hinit (or_introl Henc)).
Defined.

(** A text with a symbol outside the character set: [encrypt] raises what
    the validation raises. *)
Lemma raises_validation_only_witness :
  __init__ (lit "b") (lit "ab") = Ok (engine (lit "b") (lit "ab")) ∧
  encrypt (engine (lit "b") (lit "ab")) (lit "ac")
    = Raise (ValueError (TextNotInCharset (list_to_set (lit "ac") ∖ list_to_set (lit "ab")))) ∧
  _validate_text (engine (lit "b") (lit "ab")) (lit "ac")
    = Raise (ValueError (TextNotInCharset (list_to_set (lit "ac") ∖ list_to_set (lit "ab")))).
Proof.
  assert (__init__ (lit "b") (lit "ab") = Ok (engine (lit "b") (lit "ab")))
    as Hinit by by_computation.
  assert (encrypt (engine (lit "b") (lit "ab")) (lit "ac")
          = Raise (ValueError (TextNotInCharset
                     (list_to_set (lit "ac") ∖ list_to_set (lit "ab"))))) as Henc
    by reflexivity.
  repeat (split; [assumption|]).
  exact (proj1 (raises_validation_only _ _ _ _ _ Hinit (or_introl Henc))).
Defined.

(** The round trip from the ciphertext of the docstring. *)
Lemma encrypt_decrypt_witness :
  NoDup CHARSET ∧
  __init__ (lit "p@sSw0rd") CHARSET = Ok (engine (lit "p@sSw0rd") CHARSET) ∧
  _validate_text (engine (lit "p@sSw0rd") CHARSET) (lit "w^D3KZNrG v") = Ok () ∧
  bind (decrypt (engine (lit "p@sSw0rd") CHARSET) (lit "w^D3KZNrG v"))
       (encrypt (engine (lit "p@sSw0rd") CHARSET))
  = Ok (lit "w^D3KZNrG v").
Proof.
  assert (NoDup CHARSET) as Hnd by decide_by_computation.
  assert (__init__ (lit "p@sSw0rd") CHARSET = Ok (engine (lit "p@sSw0rd") CHARSET))
    as Hinit by by_computation.
  assert (_validate_text (engine (lit "p@sSw0rd") CHARSET) (lit "w^D3KZNrG v") = Ok ())
    as Hval by by_computation.
  repeat (split; [assumption|]).
  destruct (encrypt_decrypt _ _ _ _ Hnd Hinit Hval) as (pt & Hdec & Henc & _).
  rewrite Hdec. simpl. apply Henc.
  assert (pt = lit "hello world") as ->.
  { assert (decrypt (engine (lit "p@sSw0rd") CHARSET) (lit "w^D3KZNrG v")
            = Ok (lit "hello world")) as Hdec' by by_computation.
    rewrite Hdec in Hdec'. injection Hdec' as ->. reflexivity. }
  no_substring.
Defined.

Lemma encrypt_injective_witness :
  NoDup CHARSET ∧
  __init__ (lit "p@sSw0rd") CHARSET = Ok (engine (lit "p@sSw0rd") CHARSET) ∧
  encrypt (engine (lit "p@sSw0rd") CHARSET) (lit "hello world") = Ok (lit "w^D3KZNrG v") ∧
  lit "hello world" = lit "hello world".
Proof.
  assert (NoDup CHARSET) as Hnd by decide_by_computation.
  assert (__init__ (lit "p@sSw0rd") CHARSET = Ok (engine (lit "p@sSw0rd") CHARSET))
    as Hinit by by_computation.
  assert (encrypt (engine (lit "p@sSw0rd") CHARSET) (lit "hello world")
          = Ok (lit "w^D3KZNrG v")) as Henc by by_computation.
  repeat (split; [assumption|]).
  exact (encrypt_injective _ _ _ _ _ _ Hnd Hinit Henc Henc).
Defined.

Lemma encrypt_formula_witness :
  NoDup CHARSET ∧
  __init__ (lit "p@sSw0rd") CHARSET = Ok (engine (lit "p@sSw0rd") CHARSET) ∧
  _validate_text (engine (lit "p@sSw0rd") CHARSET) (lit "hello world") = Ok () ∧
  ∃ ct, encrypt (engine (lit "p@sSw0rd") CHARSET) (lit "hello world") = Ok ct ∧
    ∀ i x, lit "hello world" !! i = Some x →
      ∃ k p q y,
        lit "p@sSw0rd" !! (i mod length (lit "p@sSw0rd")) = Some k ∧
        CHARSET !! p = Some x ∧ CHARSET !! q = Some k ∧
        CHARSET !! ((p + q) mod length CHARSET) = Some y ∧ ct !! i = Some y.
Proof.
  assert (NoDup CHARSET) as Hnd by decide_by_computation.
  assert (__init__ (lit "p@sSw0rd") CHARSET = Ok (engine (lit "p@sSw0rd") CHARSET))
    as Hinit by by_computation.
  assert (_validate_text (engine (lit "p@sSw0rd") CHARSET) (lit "hello world") = Ok ())
    as Hval by by_computation.
  repeat (split; [assumption|]).
  exact (encrypt_formula _ _ _ _ Hnd Hinit Hval).
Defined.

Lemma decrypt_formula_witness :
  NoDup CHARSET ∧
  __init__ (lit "p@sSw0rd") CHARSET = Ok (engine (lit "p@sSw0rd") CHARSET) ∧
  _validate_text (engine (lit "p@sSw0rd") CHARSET) (lit "w^D3KZNrG v") = Ok () ∧
  ∃ pt, decrypt (engine (lit "p@sSw0rd") CHARSET) (lit "w^D3KZNrG v") = Ok pt ∧
    ∀ i y, lit "w^D3KZNrG v" !! i = Some y →
      ∃ k p q x,
        lit "p@sSw0rd" !! (i mod length (lit "p@sSw0rd")) = Some k ∧
        CHARSET !! p = Some y ∧ CHARSET !! q = Some k ∧
        CHARSET !! ((p + (length CHARSET - q)) mod length CHARSET) = Some x ∧
        pt !! i = Some x.
Proof.
  assert (NoDup CHARSET) as Hnd by decide_by_computation.
  assert (__init__ (lit "p@sSw0rd") CHARSET = Ok (engine (lit "p@sSw0rd") CHARSET))
    as Hinit by by_computation.
  assert (_validate_text (engine (lit "p@sSw0rd") CHARSET) (lit "w^D3KZNrG v") = Ok ())
    as Hval by by_computation.
  repeat (split; [assumption|]).
  exact (decrypt_formula _ _ _ _ Hnd Hinit Hval).
Defined.

Lemma show_in_charset_order_witness :
  NoDup (lit "ab") ∧
  __init__ (lit "a") (lit "ab") = Ok (engine (lit "a") (lit "ab")) ∧
  ¬ substring [tab_char] (lit "ab") ∧ [tab_char] ≠ [newline_char] ∧
  show newline_char quoted (engine (lit "a") (lit "ab")) [tab_char]
    = Ok (lit "'a'" ++ [tab_char] ++ lit "'a'" ++ [tab_char] ++ lit "'b'" ++ [newline_char]
          ++ lit "'b'" ++ [tab_char] ++ lit "'b'" ++ [tab_char] ++ lit "'a'" ++ [newline_char]).
Proof.
  assert (NoDup (lit "ab")) as Hnd by decide_by_computation.
  assert (__init__ (lit "a") (lit "ab") = Ok (engine (lit "a") (lit "ab")))
    as Hinit by by_computation.
  assert (¬ substring [tab_char] (lit "ab")) as Hsub by no_substring.
  assert ([tab_char] ≠ [newline_char]) as Hnl by (vm_compute; discriminate).
  repeat (split; [assumption|]).
  rewrite (show_in_charset_order newline_char quoted _ _ _ _ Hnd Hinit Hsub Hnl).
  reflexivity.
Defined.
